(** * Transaction reconciliation engine ([script.js], [reconcileTransactions])

    A shallow embedding of the method [ReconciliationTool.reconcileTransactions]
    and of the JavaScript built-ins it calls, followed by the properties of
    the engine.

    - Strings are sequences of UTF-16 code units.
    - Numbers are IEEE 754 binary64 values, through the Standard Library's
      [SpecFloat] (round to nearest, ties to even).
    - A row is the object built by [parseCSV]: a finite map from column names
      to string values.  Reading a column that is not there gives [undefined].
    - [Map] is an insertion-ordered association list updated in place.
    - A method call on [undefined] (or on a value that lacks the method)
      throws a [TypeError]; the engine therefore lives in an error monad. *)

From Stdlib Require Import ZArith NArith List Bool Lia SpecFloat.
From stdpp Require Import base option list gmap strings.

Set Warnings "-notation-for-abbreviation".
Local Open Scope N_scope.

(** ** Strings *)

(** A JavaScript string: its UTF-16 code units. *)
Notation jsstring := (list N).

(** A string literal of the source (code units below 128). *)
Definition js (s : string) : jsstring :=
  map Ascii.N_of_ascii (String.list_ascii_of_string s).

(** ECMAScript [WhiteSpace] and [LineTerminator] code points, the ones
    [String.prototype.trim] and [parseFloat] strip. *)
Definition isWhiteSpace (c : N) : bool :=
  (c =? 9) || (c =? 10) || (c =? 11) || (c =? 12) || (c =? 13) || (c =? 32)
  || (c =? 160) || (c =? 5760) || ((8192 <=? c) && (c <=? 8202))
  || (c =? 8232) || (c =? 8233) || (c =? 8239) || (c =? 8287)
  || (c =? 12288) || (c =? 65279).

Fixpoint trimStart (s : jsstring) : jsstring :=
  match s with
  | c :: s' => if isWhiteSpace c then trimStart s' else s
  | [] => []
  end.

Definition trimEnd (s : jsstring) : jsstring := rev (trimStart (rev s)).

(** [String.prototype.trim]. *)
Definition trim (s : jsstring) : jsstring := trimEnd (trimStart s).

(** [String.prototype.toLowerCase] restricted to Basic Latin: the letters
    [A]-[Z] go to [a]-[z], every other code unit is kept.  It agrees with the
    built-in on strings whose code units are all below 128; the engine itself
    is stated for an arbitrary lower-casing function. *)
Definition toLowerCase_basic_latin (s : jsstring) : jsstring :=
  map (fun c => if (65 <=? c) && (c <=? 90) then c + 32 else c) s.

(** ** Numbers *)

Notation number := spec_float.

Definition prec : Z := 53.
Definition emax : Z := 1024.

Definition NaN : number := S754_nan.

(** The Number value of the decimal [m * 10^e10], [m >= 0], with sign bit
    [neg]: the nearest binary64 value, ties to even. *)
Definition decimal_to_number (neg : bool) (m : Z) (e10 : Z) : number :=
  if (m =? 0)%Z then S754_zero neg
  else if (0 <=? e10)%Z then
    binary_normalize prec emax
      (if neg then - (m * 10 ^ e10) else m * 10 ^ e10)%Z 0%Z neg
  else
    let '(q, e, l) := SFdiv_core_binary prec emax m 0%Z (10 ^ (- e10))%Z 0%Z in
    binary_round_aux prec emax neg q e l.

Definition isDigit (c : N) : bool := (48 <=? c) && (c <=? 57).

(** The longest run of decimal digits at the front of [s], and the rest. *)
Fixpoint spanDigits (s : jsstring) : list N * jsstring :=
  match s with
  | c :: s' =>
      if isDigit c then let '(ds, r) := spanDigits s' in (c :: ds, r)
      else ([], s)
  | [] => ([], [])
  end.

(** The mathematical value of a run of decimal digits. *)
Definition digitsValue (ds : list N) : Z :=
  fold_left (fun acc c => (acc * 10 + Z.of_N (c - 48))%Z) ds 0%Z.

Fixpoint isPrefix (p s : jsstring) : bool :=
  match p, s with
  | [], _ => true
  | a :: p', b :: s' => (a =? b) && isPrefix p' s'
  | _ :: _, [] => false
  end.

(** [ExponentPart] of [StrDecimalLiteral]: [e] or [E], an optional sign and at
    least one digit; when that is not what follows, there is no exponent. *)
Definition exponentPart (s : jsstring) : Z :=
  match s with
  | c :: r =>
      if (c =? 101) || (c =? 69) then
        let '(neg, r') :=
          match r with
          | 43 :: t => (false, t)
          | 45 :: t => (true, t)
          | _ => (false, r)
          end in
        match fst (spanDigits r') with
        | [] => 0%Z
        | ds => if neg then (- digitsValue ds)%Z else digitsValue ds
        end
      else 0%Z
  | [] => 0%Z
  end.

(** [parseFloat] on a string: leading white space is dropped, the longest
    prefix that is a [StrDecimalLiteral] is converted, and [NaN] is returned
    when no prefix is one. *)
Definition parseFloat_string (s : jsstring) : number :=
  let t := trimStart s in
  let '(neg, u) :=
    match t with
    | 43 :: r => (false, r)
    | 45 :: r => (true, r)
    | _ => (false, t)
    end in
  if isPrefix (js "Infinity") u then S754_infinity neg
  else
    let '(ip, r1) := spanDigits u in
    let '(fp, r2) :=
      match r1 with
      | 46 :: r => spanDigits r
      | _ => ([], r1)
      end in
    match ip ++ fp with
    | [] => NaN
    | ds =>
        decimal_to_number neg (digitsValue ds)
          (exponentPart r2 - Z.of_nat (length fp))
    end.

(** The literal [0.01]. *)
Definition tolerance : number := Eval vm_compute in decimal_to_number false 1 (-2).

(** [Math.abs(a - b) < 0.01]. *)
Definition amountsClose (a b : number) : bool :=
  SFltb (SFabs (SFsub prec emax a b)) tolerance.

(** ** Values *)

(** The values the engine handles: [undefined], strings, and the number
    literal of [x || 0] (a non-negative integer). *)
Inductive value :=
  | VUndefined
  | VString (s : jsstring)
  | VNumber (n : N).

Definition ToBoolean (v : value) : bool :=
  match v with
  | VUndefined => false
  | VString [] => false
  | VString (_ :: _) => true
  | VNumber n => negb (n =? 0)
  end.

(** [a || b]. *)
Definition js_or (a b : value) : value := if ToBoolean a then a else b.

Fixpoint uint_digits (d : Decimal.uint) : jsstring :=
  match d with
  | Decimal.Nil => []
  | Decimal.D0 d' => 48 :: uint_digits d'
  | Decimal.D1 d' => 49 :: uint_digits d'
  | Decimal.D2 d' => 50 :: uint_digits d'
  | Decimal.D3 d' => 51 :: uint_digits d'
  | Decimal.D4 d' => 52 :: uint_digits d'
  | Decimal.D5 d' => 53 :: uint_digits d'
  | Decimal.D6 d' => 54 :: uint_digits d'
  | Decimal.D7 d' => 55 :: uint_digits d'
  | Decimal.D8 d' => 56 :: uint_digits d'
  | Decimal.D9 d' => 57 :: uint_digits d'
  end.

(** The abstract operation [ToString]. *)
Definition ToString (v : value) : jsstring :=
  match v with
  | VUndefined => js "undefined"
  | VString s => s
  | VNumber n => uint_digits (N.to_uint n)
  end.

(** [parseFloat(v)]: the argument is first converted with [ToString]. *)
Definition parseFloat (v : value) : number := parseFloat_string (ToString v).

(** ** Exceptions *)

Inductive error := TypeError.

Inductive exc (A : Type) :=
  | Ok (a : A)
  | Throw (e : error).
Arguments Ok {A} a.
Arguments Throw {A} e.

#[global] Instance exc_ret : MRet exc := fun A a => Ok a.
#[global] Instance exc_bind : MBind exc := fun A B f m =>
  match m with
  | Ok a => f a
  | Throw e => Throw e
  end.

(** [v.toString()]. *)
Definition method_toString (v : value) : exc jsstring :=
  match v with
  | VUndefined => Throw TypeError
  | _ => Ok (ToString v)
  end.

(** [Array.prototype.forEach] and [for ... of], threading the state the body
    mutates. *)
Fixpoint forEach {A S : Type} (body : S -> A -> exc S) (l : list A) (s : S)
  : exc S :=
  match l with
  | [] => Ok s
  | x :: l' => s' ← body s x; forEach body l' s'
  end.

(** ** Rows *)

(** A parsed row: column name to string value. *)
Notation Row := (gmap jsstring jsstring).

(** [row.name]. *)
Definition get (row : Row) (name : string) : value :=
  match row !! js name with
  | Some s => VString s
  | None => VUndefined
  end.

(** ** [Map] *)

Section JSMap.
Context {V : Type}.

(** Entries in insertion order. *)
Notation JSMap := (list (jsstring * V)).

Fixpoint Map_has (m : JSMap) (k : jsstring) : bool :=
  match m with
  | [] => false
  | (k', _) :: m' => if decide (k = k') then true else Map_has m' k
  end.

(** [undefined] is [None]. *)
Fixpoint Map_get (m : JSMap) (k : jsstring) : option V :=
  match m with
  | [] => None
  | (k', v) :: m' => if decide (k = k') then Some v else Map_get m' k
  end.

(** An existing key keeps its position and takes the new value; a new key
    goes to the end. *)
Fixpoint Map_set (k : jsstring) (v : V) (m : JSMap) : JSMap :=
  match m with
  | [] => [(k, v)]
  | (k', v') :: m' =>
      if decide (k = k') then (k, v) :: m' else (k', v') :: Map_set k v m'
  end.

Definition Map_keys (m : JSMap) : list jsstring := m.*1.
End JSMap.

Notation JSMap := (list (jsstring * Row)).

(** ** The engine *)

(** One entry of [results.matched] / [results.mismatched] ([matchData]). *)
Record MatchData := {
  transaction_reference : jsstring;
  internal : Row;
  provider : Row;
  amount_match : bool;
  status_match : bool;
  fully_matched : bool
}.

Record Summary := {
  total_internal : nat;
  total_provider : nat;
  matched_count : nat;
  mismatched_count : nat;
  internal_only_count : nat;
  provider_only_count : nat
}.

(** The [results] object; [summary] is [None] while it is still [{}]. *)
Record Results := {
  matched : list MatchData;
  mismatched : list MatchData;
  internal_only : list Row;
  provider_only : list Row;
  summary : option Summary
}.

(** The state of the tool object that survives a call: [this.currentResults]
    ([null] is [None]). *)
Record ReconciliationTool := {
  currentResults : option Results
}.

(** [new ReconciliationTool()], the event wiring left out. *)
Definition constructor : ReconciliationTool := {| currentResults := None |}.

(** [parseFloat(txn.amount || 0)], the amount of either row. *)
Definition amountOf (txn : Row) : number :=
  parseFloat (js_or (get txn "amount") (VNumber 0)).

(** [(row.transaction_reference || row.reference || row.id || '')
      .toString().trim()]. *)
Definition refOf (row : Row) : exc jsstring :=
  s ← method_toString
        (js_or (js_or (js_or (get row "transaction_reference")
                             (get row "reference"))
                      (get row "id"))
               (VString []));
  mret (trim s).

(** The body of the two [forEach] loops that fill [internalMap] and
    [providerMap] (the same on either side). *)
Definition indexRow (m : JSMap) (row : Row) : exc JSMap :=
  ref ← refOf row;
  mret (if ToBoolean (VString ref) then Map_set ref row m else m).

(** [const m = new Map(); data.forEach(row => ...)]. *)
Definition buildIndex (data : list Row) : exc JSMap := forEach indexRow data [].

Definition push_matched (r : Results) (d : MatchData) : Results :=
  {| matched := matched r ++ [d]; mismatched := mismatched r;
     internal_only := internal_only r; provider_only := provider_only r;
     summary := summary r |}.

Definition push_mismatched (r : Results) (d : MatchData) : Results :=
  {| matched := matched r; mismatched := mismatched r ++ [d];
     internal_only := internal_only r; provider_only := provider_only r;
     summary := summary r |}.

Definition push_internal_only (r : Results) (txn : Row) : Results :=
  {| matched := matched r; mismatched := mismatched r;
     internal_only := internal_only r ++ [txn];
     provider_only := provider_only r; summary := summary r |}.

Definition push_provider_only (r : Results) (txn : Row) : Results :=
  {| matched := matched r; mismatched := mismatched r;
     internal_only := internal_only r;
     provider_only := provider_only r ++ [txn]; summary := summary r |}.

Definition set_summary (r : Results) (s : Summary) : Results :=
  {| matched := matched r; mismatched := mismatched r;
     internal_only := internal_only r; provider_only := provider_only r;
     summary := Some s |}.

(** *** Keys and indexes, for the statements *)

(** The first of [transaction_reference], [reference], [id] that is present
    and not the empty string; the empty string when there is none. *)
Definition firstNonEmpty (row : Row) : jsstring :=
  match row !! js "transaction_reference" with
  | Some (c :: s) => c :: s
  | _ =>
      match row !! js "reference" with
      | Some (c :: s) => c :: s
      | _ => default [] (row !! js "id")
      end
  end.

(** The transaction key of a row: its reference when that is not empty. *)
Definition keyOf (row : Row) : option jsstring :=
  match refOf row with
  | Ok (c :: s) => Some (c :: s)
  | _ => None
  end.

(** The rows that produce a key, each with its key, in input order. *)
Definition keyedRows (data : list Row) : list (jsstring * Row) :=
  omap (fun row => k ← keyOf row; Some (k, row)) data.

(** The distinct keys of a list, each at the place of its first occurrence. *)
Fixpoint first_occurrences (l : list jsstring) : list jsstring :=
  match l with
  | [] => []
  | k :: l' => k :: filter (fun x => x ≠ k) (first_occurrences l')
  end.

(** The last row entered under key [k]. *)
Definition lastWith (k : jsstring) (es : list (jsstring * Row)) : option Row :=
  snd <$> last (filter (fun e => e.1 = k) es).

(** [Map.set] over a list of entries, in order. *)
Definition setAll {V} (es : list (jsstring * V)) (m : list (jsstring * V))
  : list (jsstring * V) :=
  fold_left (fun m e => Map_set e.1 e.2 m) es m.

(** The index a side ends with. *)
Definition indexOf (data : list Row) : JSMap := setAll (keyedRows data) [].

Section Engine.
(** [String.prototype.toLowerCase], whose Unicode case tables are not
    embedded: the engine is defined, and its properties hold, for any such
    function. *)
Variable toLowerCase : jsstring -> jsstring.

(** [v.toLowerCase()]: only strings have the method. *)
Definition method_toLowerCase (v : value) : exc jsstring :=
  match v with
  | VString s => Ok (toLowerCase s)
  | _ => Throw TypeError
  end.

(** [(txn.status || '').toLowerCase().trim()], the status of either row. *)
Definition statusOf (txn : Row) : exc jsstring :=
  s ← method_toLowerCase (js_or (get txn "status") (VString []));
  mret (trim s).

(** The body of [for (const [ref, internalTxn] of internalMap)]. *)
Definition classify (providerMap : JSMap) (results : Results)
    (entry : jsstring * Row) : exc Results :=
  let '(ref, internalTxn) := entry in
  if Map_has providerMap ref then
    match Map_get providerMap ref with
    | None => Throw TypeError
    | Some providerTxn =>
        let internalAmount := amountOf internalTxn in
        let providerAmount := amountOf providerTxn in
        let amountMatch := amountsClose internalAmount providerAmount in
        internalStatus ← statusOf internalTxn;
        providerStatus ← statusOf providerTxn;
        let statusMatch := bool_decide (internalStatus = providerStatus) in
        let matchData :=
          {| transaction_reference := ref;
             internal := internalTxn;
             provider := providerTxn;
             amount_match := amountMatch;
             status_match := statusMatch;
             fully_matched := amountMatch && statusMatch |} in
        mret (if fully_matched matchData
              then push_matched results matchData
              else push_mismatched results matchData)
    end
  else mret (push_internal_only results internalTxn).

(** The body of [for (const [ref, providerTxn] of providerMap)]. *)
Definition providerOnly (internalMap : JSMap) (results : Results)
    (entry : jsstring * Row) : exc Results :=
  let '(ref, providerTxn) := entry in
  mret (if negb (Map_has internalMap ref)
        then push_provider_only results providerTxn
        else results).

Definition reconcileTransactions (this : ReconciliationTool)
    (internalData providerData : list Row) : exc Results :=
  let results :=
    {| matched := []; mismatched := []; internal_only := [];
       provider_only := []; summary := None |} in
  internalMap ← buildIndex internalData;
  providerMap ← buildIndex providerData;
  results ← forEach (classify providerMap) internalMap results;
  results ← forEach (providerOnly internalMap) providerMap results;
  mret (set_summary results
          {| total_internal := length internalData;
             total_provider := length providerData;
             matched_count := length (matched results);
             mismatched_count := length (mismatched results);
             internal_only_count := length (internal_only results);
             provider_only_count := length (provider_only results) |}).

(** The part of [processReconciliation] that follows the parsing of the two
    files: empty data and a thrown error end in [showError] and leave the
    stored results alone, otherwise the results are stored in
    [this.currentResults]. *)
Definition processReconciliation (this : ReconciliationTool)
    (internalData providerData : list Row) : ReconciliationTool :=
  if (length internalData =? 0)%nat || (length providerData =? 0)%nat
  then this
  else
    match reconcileTransactions this internalData providerData with
    | Ok results => {| currentResults := Some results |}
    | Throw _ => this
    end.


(** *** Specification-side notions *)

(** The status the comparison uses: the [status] column, the empty string
    when it is absent, lower-cased and trimmed. *)
Definition statusText (txn : Row) : jsstring :=
  trim (toLowerCase (default [] (txn !! js "status"))).

(** The Match Record of a key held by both indexes. *)
Definition matchRecord (ref : jsstring) (internalTxn providerTxn : Row)
  : MatchData :=
  {| transaction_reference := ref;
     internal := internalTxn;
     provider := providerTxn;
     amount_match := amountsClose (amountOf internalTxn) (amountOf providerTxn);
     status_match := bool_decide (statusText internalTxn = statusText providerTxn);
     fully_matched :=
       amountsClose (amountOf internalTxn) (amountOf providerTxn)
       && bool_decide (statusText internalTxn = statusText providerTxn) |}.

(** The Match Records of the join, in the order of the internal index. *)
Definition joinRecords (internalMap providerMap : JSMap) : list MatchData :=
  omap (fun e => matchRecord e.1 e.2 <$> Map_get providerMap e.1) internalMap.

(** What the first loop adds to [results]. *)
Definition afterClassify (providerMap es : JSMap) (r : Results) : Results :=
  {| matched :=
       matched r ++ filter (fun d => fully_matched d = true) (joinRecords es providerMap);
     mismatched :=
       mismatched r ++ filter (fun d => fully_matched d = false) (joinRecords es providerMap);
     internal_only :=
       internal_only r ++ (filter (fun e => Map_has providerMap e.1 = false) es).*2;
     provider_only := provider_only r;
     summary := summary r |}.

(** What the second loop adds to [results]. *)
Definition afterProviderOnly (internalMap es : JSMap) (r : Results) : Results :=
  {| matched := matched r;
     mismatched := mismatched r;
     internal_only := internal_only r;
     provider_only :=
       provider_only r ++ (filter (fun e => Map_has internalMap e.1 = false) es).*2;
     summary := summary r |}.

(** The result of the engine, in closed form. *)
Definition reconciled (internalData providerData : list Row) : Results :=
  let internalMap := indexOf internalData in
  let providerMap := indexOf providerData in
  let joined := joinRecords internalMap providerMap in
  let m := filter (fun d => fully_matched d = true) joined in
  let mm := filter (fun d => fully_matched d = false) joined in
  let io := (filter (fun e => Map_has providerMap e.1 = false) internalMap).*2 in
  let po := (filter (fun e => Map_has internalMap e.1 = false) providerMap).*2 in
  {| matched := m; mismatched := mm; internal_only := io; provider_only := po;
     summary :=
       Some {| total_internal := length internalData;
               total_provider := length providerData;
               matched_count := length m;
               mismatched_count := length mm;
               internal_only_count := length io;
               provider_only_count := length po |} |}.
End Engine.

(** *** Notions of the specification *)

(** The keys held by the four categories of a result, category by category. *)
Definition categoryKeys (r : Results) : list jsstring :=
  (transaction_reference <$> matched r) ++ (transaction_reference <$> mismatched r)
  ++ omap keyOf (internal_only r) ++ omap keyOf (provider_only r).

(** A key column that is absent or blank (empty once trimmed). *)
Definition blankField (row : Row) (name : string) : bool :=
  match row !! js name with
  | Some s => bool_decide (trim s = [])
  | None => true
  end.

(** A row with no [transaction_reference], [reference] or [id], or all of
    them blank. *)
Definition blankKeys (row : Row) : bool :=
  blankField row "transaction_reference" && blankField row "reference"
  && blankField row "id".

(** The key column as the specification reads it: its trimmed value when that
    is not empty. *)
Definition spec_field (row : Row) (name : string) : option jsstring :=
  match row !! js name with
  | Some s => match trim s with [] => None | t => Some t end
  | None => None
  end.

(** [extractKey] as the specification words it: the first of the three
    columns that is non-empty after trimming. *)
Definition spec_extractKey (row : Row) : option jsstring :=
  match spec_field row "transaction_reference" with
  | Some k => Some k
  | None =>
      match spec_field row "reference" with
      | Some k => Some k
      | None => spec_field row "id"
      end
  end.

(** *** Inputs of the scenarios *)

(** A row from its columns (distinct names). *)
Definition mkRow (l : list (string * string)) : Row :=
  list_to_map ((fun p => (js p.1, js p.2)) <$> l).

(** Scenario A: the statuses differ in case only. *)
Definition T1_internal : Row :=
  mkRow [("id", "T1"); ("amount", "10.00"); ("status", "Completed")]%string.
Definition T1_provider : Row :=
  mkRow [("id", "T1"); ("amount", "10.00"); ("status", "completed")]%string.

(** Scenario B: the amounts differ by a half. *)
Definition T2_internal : Row :=
  mkRow [("id", "T2"); ("amount", "10.00"); ("status", "Completed")]%string.
Definition T2_provider : Row :=
  mkRow [("id", "T2"); ("amount", "10.50"); ("status", "Completed")]%string.

(** Scenario C: a key of the internal side alone. *)
Definition T3_internal : Row :=
  mkRow [("id", "T3"); ("amount", "5"); ("status", "ok")]%string.



(** A blank [transaction_reference] in front of a usable [id]. *)
Definition T7_blank_reference : Row :=
  mkRow [("transaction_reference", " "); ("id", "T7")]%string.

Definition T4_amount1 : Row := mkRow [("id", "T4"); ("amount", "1")]%string.
Definition T4_amount2 : Row := mkRow [("id", "T4"); ("amount", "2")]%string.

(** Scenario D: a duplicate key within the internal input. *)
Definition scenarioD_internal : list Row := [T4_amount1; T4_amount2].
Definition scenarioD_provider : list Row := [T4_amount2].

(** ** Reading a file: [parseCSV] *)

(** [s.split(sep)] for a separator of one code unit: the pieces between the
    occurrences of [sep], in order; one piece more than there are
    occurrences. *)
Fixpoint String_split (sep : N) (s : jsstring) : list jsstring :=
  match s with
  | [] => [[]]
  | c :: s' =>
      if c =? sep then [] :: String_split sep s'
      else
        match String_split sep s' with
        | piece :: rest => (c :: piece) :: rest
        | [] => [[c]]
        end
  end.

(** [v.trim()] followed by the [replace] that deletes every double quote
    (code unit 34); applied to every header and every field. *)
Definition cleanField (v : jsstring) : jsstring :=
  filter (fun c => c ≠ 34) (trim v).

(** [text.split('\n').filter(line => line.trim())]. *)
Definition nonBlankLines (text : jsstring) : list jsstring :=
  filter (fun line => ToBoolean (VString (trim line)) = true)
    (String_split 10 text).

(** [lines[0].split(',')] with every piece cleaned; [lines[0]] is read only
    when there are at least two lines. *)
Definition csvHeaders (lines : list jsstring) : list jsstring :=
  cleanField <$> String_split 44 (default [] (head lines)).

(** [row[header] = value] on a plain object, the value being a string: an own
    property is created or overwritten, except under the name [__proto__],
    where the inherited setter takes the string and does nothing. *)
Definition setColumn (row : Row) (header value : jsstring) : Row :=
  if decide (header = js "__proto__") then row else <[header := value]> row.

(** [const row = {}; headers.forEach((header, index) => row[header] =
    values[index])], for as many values as headers. *)
Definition fillRow (headers values : list jsstring) : Row :=
  foldl (fun row hv => setColumn row hv.1 hv.2) ∅ (zip headers values).

(** How a promise settles. *)
Inductive promise (A : Type) :=
  | Resolved (a : A)
  | Rejected (message : jsstring).
Arguments Resolved {A} a.
Arguments Rejected {A} message.

(** The body of the loop over the data lines: a line with as many fields as
    there are headers gives a row, any other line is skipped. *)
Definition parseLine (headers : list jsstring) (line : jsstring) : option Row :=
  let values := cleanField <$> String_split 44 line in
  if (length values =? length headers)%nat
  then Some (fillRow headers values)
  else None.

(** [parseCSV(file)]: the file is its text as [readAsText] decodes it, or
    [None] when the reader reports an error.  Nothing in the handler can
    throw on a string, so the [catch] branch is never taken. *)
Definition parseCSV (file : option jsstring) : promise (list Row) :=
  match file with
  | None => Rejected (js "Failed to read file")
  | Some text =>
      let lines := nonBlankLines text in
      if (length lines <? 2)%nat
      then Rejected (js "CSV file must have at least a header and one data row")
      else Resolved (omap (parseLine (csvHeaders lines)) (tail lines))
  end.

(** ** Exporting a category: [convertToCSV], [exportCategory] *)

(** The decimal digits of a non-negative integer. *)
Definition decimalString (n : Z) : jsstring := uint_digits (N.to_uint (Z.to_N n)).

(** The integer [n] of [Number.prototype.toFixed] for two fraction digits and
    the positive value [m * 2^e]: the one for which [n / 100] is nearest to
    the value, the larger one when two are as near. *)
Definition exactCents (m : positive) (e : Z) : Z :=
  if (0 <=? e)%Z then (100 * Zpos m * 2 ^ e)%Z
  else ((200 * Zpos m + 2 ^ (- e)) / (2 * 2 ^ (- e)))%Z.

(** Whether [m * 2^e] is at least [10^21]. *)
Definition atLeast1e21 (m : positive) (e : Z) : bool :=
  if (0 <=? e)%Z then (10 ^ 21 <=? Zpos m * 2 ^ e)%Z
  else (10 ^ 21 * 2 ^ (- e) <=? Zpos m)%Z.

(** The digits of [n] with the point before the last two, zeros put in front
    when there are fewer than three digits. *)
Definition fixedDigits (n : Z) : jsstring :=
  let ds := decimalString n in
  let ds := replicate (3 - length ds) 48 ++ ds in
  take (length ds - 2) ds ++ [46] ++ drop (length ds - 2) ds.

(** [Number::toString] for a finite value [x] that is an integer [X >= 10^21]
    with [D] decimal digits: the shortest run of digits [s], [k] of them,
    for which [s * 10^(n - k)] is read back as [x] (the nearest to [X] when
    two runs of that length do, the even one on a tie), written in exponent
    notation.  [fuel] bounds the lengths tried; all the digits of [X] are the
    last resort. *)
Fixpoint shortestDigits (fuel : nat) (k : Z) (x : number) (X D : Z) : Z * Z :=
  match fuel with
  | O => (X, D)
  | S fuel' =>
      let p := (10 ^ (D - k))%Z in
      let lo := (X / p)%Z in
      let hi := (lo + 1)%Z in
      let okLo := (10 ^ (k - 1) <=? lo)%Z && (lo <? 10 ^ k)%Z
                  && SFeqb (decimal_to_number false lo (D - k)) x in
      let okHi := (hi <? 10 ^ k)%Z
                  && SFeqb (decimal_to_number false hi (D - k)) x in
      if okLo && okHi then
        match (X - lo * p ?= hi * p - X)%Z with
        | Lt => (lo, k)
        | Gt => (hi, k)
        | Eq => if Z.even lo then (lo, k) else (hi, k)
        end
      else if okLo then (lo, k)
      else if okHi then (hi, k)
      else shortestDigits fuel' (k + 1)%Z x X D
  end.

Definition exponentString (digits : jsstring) (n : Z) : jsstring :=
  match digits with
  | [] => []
  | [d] => [d] ++ js "e+" ++ decimalString (n - 1)
  | d :: rest => [d] ++ [46] ++ rest ++ js "e+" ++ decimalString (n - 1)
  end.

Definition largeNumberString (m : positive) (e : Z) : jsstring :=
  let X := (Zpos m * 2 ^ e)%Z in
  let D := Z.of_nat (length (decimalString X)) in
  if SFeqb (decimal_to_number false 1 D) (S754_finite false m e)
  then exponentString [49] (D + 1)
  else
    let '(s, k) := shortestDigits 17 1 (S754_finite false m e) X D in
    exponentString (decimalString s) D.

(** [x.toFixed(2)]. *)
Definition toFixed2 (x : number) : jsstring :=
  match x with
  | S754_nan => js "NaN"
  | S754_infinity false => js "Infinity"
  | S754_infinity true => js "-Infinity"
  | S754_zero _ => js "0.00"
  | S754_finite s m e =>
      (if s then [45] else [])
      ++ (if atLeast1e21 m e then largeNumberString m e
          else fixedDigits (exactCents m e))
  end.

(** An element of the array given to [convertToCSV]: a Match Record or a
    row. *)
Inductive exportItem :=
  | MatchItem (d : MatchData)
  | RowItem (txn : Row).

(** [x.name] for the names the exporter reads as text
    ([transaction_reference], [reference], [id], [amount], [status],
    [date]): a column of a row; of a Match Record, its
    [transaction_reference], every other of these names being absent. *)
Definition itemText (x : exportItem) (name : string) : value :=
  match x with
  | RowItem txn => get txn name
  | MatchItem d =>
      if String.eqb name "transaction_reference"
      then VString (transaction_reference d)
      else VUndefined
  end.

(** [x.side.name], [side] being [internal] or [provider]: of a Match Record,
    a column of that row; of a row, [undefined] when the row has a column
    [side] (a string has no such property) and a [TypeError] when it has
    none. *)
Definition itemSideText (x : exportItem) (side name : string) : exc value :=
  match x with
  | MatchItem d =>
      Ok (get (if String.eqb side "internal" then internal d else provider d) name)
  | RowItem txn =>
      match txn !! js side with
      | Some _ => Ok VUndefined
      | None => Throw TypeError
      end
  end.

(** The test of [x.flag ? 'Yes' : 'No'], [flag] being [amount_match] or
    [status_match]. *)
Definition itemFlag (x : exportItem) (flag : string) : bool :=
  match x with
  | MatchItem d =>
      if String.eqb flag "amount_match" then amount_match d else status_match d
  | RowItem txn => ToBoolean (get txn flag)
  end.

(** [v || ''] as a cell. *)
Definition orEmpty (v : value) : value := js_or v (VString []).

(** [parseFloat(v || 0).toFixed(2)] as a cell. *)
Definition amountCell (v : value) : value :=
  VString (toFixed2 (parseFloat (js_or v (VNumber 0)))).

(** [stringValue.includes(c)] for one code unit. *)
Definition includes (s : jsstring) (c : N) : bool := bool_decide (c ∈ s).

(** The [replace] of [escapeCSVValue]: every double quote is doubled. *)
Definition doubleQuotes (s : jsstring) : jsstring :=
  s ≫= (fun c => if c =? 34 then [34; 34] else [c]).

Definition escapeCSVValue (v : value) : exc jsstring :=
  stringValue ← method_toString v;
  mret (if includes stringValue 44 || includes stringValue 34
           || includes stringValue 10
        then [34] ++ doubleQuotes stringValue ++ [34]
        else stringValue).

(** [Array.prototype.join] on strings. *)
Fixpoint join (sep : jsstring) (l : list jsstring) : jsstring :=
  match l with
  | [] => []
  | [x] => x
  | x :: l' => x ++ sep ++ join sep l'
  end.

Definition matchedHeaders : list value :=
  VString <$> [js "Transaction Reference"; js "Amount"; js "Status"; js "Date";
               js "Match Type"].

Definition mismatchedHeaders : list value :=
  VString <$> [js "Transaction Reference"; js "Internal Amount";
               js "Provider Amount"; js "Internal Status"; js "Provider Status";
               js "Amount Match"; js "Status Match"].

Definition onlyHeaders : list value :=
  VString <$> [js "Transaction Reference"; js "Amount"; js "Status"; js "Date";
               js "Source"].

(** The row of cells of one element, [case 'matched']. *)
Definition matchedCells (x : exportItem) : exc (list value) :=
  amount ← itemSideText x "internal" "amount";
  status ← itemSideText x "internal" "status";
  date ← itemSideText x "internal" "date";
  mret [orEmpty (itemText x "transaction_reference"); amountCell amount;
        orEmpty status; orEmpty date; VString (js "Perfect Match")].

(** [case 'mismatched']. *)
Definition mismatchedCells (x : exportItem) : exc (list value) :=
  internalAmount ← itemSideText x "internal" "amount";
  providerAmount ← itemSideText x "provider" "amount";
  internalStatus ← itemSideText x "internal" "status";
  providerStatus ← itemSideText x "provider" "status";
  mret [orEmpty (itemText x "transaction_reference");
        amountCell internalAmount; amountCell providerAmount;
        orEmpty internalStatus; orEmpty providerStatus;
        VString (if itemFlag x "amount_match" then js "Yes" else js "No");
        VString (if itemFlag x "status_match" then js "Yes" else js "No")].

(** [case 'internal_only'] and [case 'provider_only'], which differ in the
    last cell. *)
Definition onlyCells (source : jsstring) (x : exportItem) : list value :=
  [ js_or (js_or (js_or (itemText x "transaction_reference")
                        (itemText x "reference"))
                 (itemText x "id"))
          (VString []);
    amountCell (itemText x "amount");
    orEmpty (itemText x "status");
    orEmpty (itemText x "date");
    VString source ].

(** [row.map(escapeCSVValue).join(',')]. *)
Definition csvLine (cells : list value) : exc jsstring :=
  escaped ← mapM escapeCSVValue cells;
  mret (join [44] escaped).

(** The end of [convertToCSV]: the header line and the lines of the rows,
    joined by line feeds. *)
Definition csvContent (headers : list value) (rows : list (list value))
  : exc jsstring :=
  headerLine ← csvLine headers;
  rowLines ← mapM csvLine rows;
  mret (join [10] (headerLine :: rowLines)).

Definition convertToCSV (data : list exportItem) (type : jsstring) : exc jsstring :=
  if (length data =? 0)%nat then Ok (js "No data available for export")
  else if decide (type = js "matched") then
    rows ← mapM matchedCells data; csvContent matchedHeaders rows
  else if decide (type = js "mismatched") then
    rows ← mapM mismatchedCells data; csvContent mismatchedHeaders rows
  else if decide (type = js "internal_only") then
    csvContent onlyHeaders (onlyCells (js "Internal System Only") <$> data)
  else if decide (type = js "provider_only") then
    csvContent onlyHeaders (onlyCells (js "Provider Statement Only") <$> data)
  else Ok (js "Invalid export type").

(** What a call of [exportCategory] ends in: an [alert], or a download
    followed by the success message, which shows the number of records. *)
Inductive exportOutcome :=
  | Alerted (message : jsstring)
  | Downloaded (filename content displayName : jsstring) (recordCount : nat).

Section Exporting.
(** [String.prototype.toLowerCase], as for the engine. *)
Variable toLowerCase : jsstring -> jsstring.

(** [exportCategory(category)].  [timestamp] is the date part of the current
    time, [new Date().toISOString().split('T')[0]]; the download is the one
    [downloadCSV] triggers where the browser has the [download] attribute. *)
Definition exportCategory (this : ReconciliationTool)
    (timestamp category : jsstring) : exc exportOutcome :=
  match currentResults this with
  | None =>
      Ok (Alerted (js "No results available for export. Please run reconciliation first."))
  | Some results =>
      let selected :=
        if decide (category = js "matched") then
          Some (MatchItem <$> matched results,
                js "perfect-matches-" ++ timestamp ++ js ".csv",
                js "Perfect Matches")
        else if decide (category = js "mismatched") then
          Some (MatchItem <$> mismatched results,
                js "mismatched-transactions-" ++ timestamp ++ js ".csv",
                js "Mismatched Transactions")
        else if decide (category = js "internal_only") then
          Some (RowItem <$> internal_only results,
                js "internal-only-" ++ timestamp ++ js ".csv",
                js "Internal Only Transactions")
        else if decide (category = js "provider_only") then
          Some (RowItem <$> provider_only results,
                js "provider-only-" ++ timestamp ++ js ".csv",
                js "Provider Only Transactions")
        else None in
      match selected with
      | None => Ok (Alerted (js "Invalid category for export"))
      | Some (data, filename, displayName) =>
          if (length data =? 0)%nat then
            Ok (Alerted (js "No " ++ toLowerCase displayName
                         ++ js " found to export."))
          else
            csvContent ← convertToCSV data category;
            mret (Downloaded filename csvContent displayName (length data))
      end
  end.
End Exporting.

(** The number of entries of the category named [category], when it names
    one of the four. *)
Definition categoryLength (r : Results) (category : jsstring) : option nat :=
  if decide (category = js "matched") then Some (length (matched r))
  else if decide (category = js "mismatched") then Some (length (mismatched r))
  else if decide (category = js "internal_only") then Some (length (internal_only r))
  else if decide (category = js "provider_only") then Some (length (provider_only r))
  else None.

(** The three header lines an export can begin with. *)
Definition exportHeaderLines : list jsstring :=
  [js "Transaction Reference,Amount,Status,Date,Match Type";
   js "Transaction Reference,Internal Amount,Provider Amount,Internal Status,Provider Status,Amount Match,Status Match";
   js "Transaction Reference,Amount,Status,Date,Source"].

(** *** Reading an export back *)

(** A code unit that is no white space, no comma and no double quote. *)
Definition safeChar (c : N) : bool :=
  negb (isWhiteSpace c) && negb (c =? 44) && negb (c =? 34).

(** A text the export writes as it is and [parseCSV] reads as it is: it has
    no comma, no double quote and no line feed, and no white space at either
    end. *)
Definition plainText (s : jsstring) : Prop :=
  (∀ c, c ∈ s → c ≠ 44 ∧ c ≠ 34 ∧ c ≠ 10) ∧ trim s = s.

(** The columns of an export of [internal_only] or [provider_only]. *)
Definition onlyColumnNames : list jsstring :=
  [js "Transaction Reference"; js "Amount"; js "Status"; js "Date"; js "Source"].

(** The row of an export as a parsed row: the five display columns with the
    cells written for [txn]. *)
Definition displayRow (source : jsstring) (txn : Row) : Row :=
  fillRow onlyColumnNames (ToString <$> onlyCells source (RowItem txn)).

(** *** Texts of the examples *)

(** The line feed. *)
Definition LF : jsstring := [10].

(** A header and two data lines, the second with a field too many. *)
Definition sample_text : jsstring :=
  js "id,amount,status" ++ LF ++ js "T1,10.00,Completed" ++ LF
  ++ js "T2,5,ok,extra" ++ LF.

(** *** Notions for the further properties of the engine *)

(** A Match Record with its two sides exchanged. *)
Definition mirror (d : MatchData) : MatchData :=
  {| transaction_reference := transaction_reference d;
     internal := provider d;
     provider := internal d;
     amount_match := amount_match d;
     status_match := status_match d;
     fully_matched := fully_matched d |}.

(** [Number.isFinite]. *)
Definition isFiniteNumber (x : number) : bool :=
  match x with
  | S754_zero _ | S754_finite _ _ _ => true
  | S754_infinity _ | S754_nan => false
  end.

(** The states the tool object goes through: the fresh object, and what a
    run of [processReconciliation] on parsed data leaves. *)
Inductive reachable (toLowerCase : jsstring -> jsstring)
  : ReconciliationTool -> Prop :=
  | reachable_new : reachable toLowerCase constructor
  | reachable_run this internalData providerData :
      reachable toLowerCase this ->
      reachable toLowerCase
        (processReconciliation toLowerCase this internalData providerData).

(** * Properties *)

Local Close Scope N_scope.

(** ** The error monad *)

Lemma exc_bind_Ok {A B} (f : A -> exc B) (a : A) : (Ok a ≫= f) = f a.
Proof. reflexivity. Qed.

Lemma forEach_cons {A S} (body : S -> A -> exc S) x l s :
  forEach body (x :: l) s = (body s x ≫= forEach body l).
Proof. reflexivity. Qed.

(** ** [Map] *)

Section JSMapFacts.
Context {V : Type}.
Implicit Types (m : list (jsstring * V)) (k : jsstring) (v : V).

Lemma Map_has_get m k : Map_has m k = bool_decide (is_Some (Map_get m k)).
Proof.
  induction m as [|[k' v'] m IH]; simpl.
  - reflexivity.
  - destruct (decide (k = k')); [reflexivity | exact IH].
Qed.

Lemma Map_get_has m k v : Map_get m k = Some v → Map_has m k = true.
Proof. intros H. rewrite Map_has_get. apply bool_decide_eq_true_2. eauto. Qed.

Lemma Map_has_keys m k : Map_has m k = true ↔ k ∈ Map_keys m.
Proof.
  unfold Map_keys. induction m as [|[k' v'] m IH]; simpl.
  - split; [discriminate | intros H; inversion H].
  - rewrite elem_of_cons. destruct (decide (k = k')); [tauto|].
    rewrite IH. tauto.
Qed.

Lemma Map_has_false_keys m k : Map_has m k = false ↔ k ∉ Map_keys m.
Proof. rewrite <- Map_has_keys. destruct (Map_has m k); split; congruence. Qed.

Lemma Map_get_Some_keys m k v : Map_get m k = Some v → k ∈ Map_keys m.
Proof.
  intros H. apply Map_has_keys. rewrite Map_has_get.
  apply bool_decide_eq_true. eauto.
Qed.

Lemma Map_get_None_keys m k : Map_get m k = None ↔ k ∉ Map_keys m.
Proof.
  rewrite <- Map_has_false_keys, Map_has_get, bool_decide_eq_false.
  rewrite <- eq_None_not_Some. tauto.
Qed.

Lemma Map_get_elem m k v : Map_get m k = Some v → (k, v) ∈ m.
Proof.
  induction m as [|[k' v'] m IH]; simpl; [discriminate|].
  destruct (decide (k = k')) as [->|].
  - intros [= ->]. apply list_elem_of_here.
  - intros H. apply list_elem_of_further, IH, H.
Qed.

Lemma Map_elem_get m k v :
  NoDup (Map_keys m) → (k, v) ∈ m → Map_get m k = Some v.
Proof.
  unfold Map_keys. induction m as [|[k' v'] m IH]; simpl.
  - intros _ H. inversion H.
  - rewrite NoDup_cons, elem_of_cons. intros [Hk Hm] [[= -> ->]|H].
    + destruct (decide (k' = k')); [reflexivity | congruence].
    + destruct (decide (k = k')) as [->|]; [|auto].
      exfalso. apply Hk. apply (list_elem_of_fmap_2 fst) in H. exact H.
Qed.

Lemma Map_keys_set k v m :
  Map_keys (Map_set k v m) =
  if Map_has m k then Map_keys m else Map_keys m ++ [k].
Proof.
  induction m as [|[k' v'] m IH]; simpl; [reflexivity|].
  destruct (decide (k = k')) as [->|]; [reflexivity|].
  change (Map_keys ((k', v') :: Map_set k v m))
    with (k' :: Map_keys (Map_set k v m)).
  rewrite IH. destruct (Map_has m k); reflexivity.
Qed.

Lemma Map_get_set k v m k' :
  Map_get (Map_set k v m) k' = if decide (k' = k) then Some v else Map_get m k'.
Proof.
  induction m as [|[k0 v0] m IH]; simpl.
  - reflexivity.
  - destruct (decide (k = k0)) as [->|Hne]; simpl.
    + destruct (decide (k' = k0)); reflexivity.
    + destruct (decide (k' = k0)) as [->|].
      * destruct (decide (k0 = k)); [congruence | reflexivity].
      * exact IH.
Qed.

Lemma Map_keys_set_NoDup k v m :
  NoDup (Map_keys m) → NoDup (Map_keys (Map_set k v m)).
Proof.
  intros H. rewrite Map_keys_set.
  destruct (Map_has m k) eqn:E; [exact H|].
  apply NoDup_app. split; [exact H|]. split.
  - intros x Hx Hx'. apply list_elem_of_singleton in Hx' as ->.
    apply Map_has_false_keys in E. contradiction.
  - apply NoDup_singleton.
Qed.
End JSMapFacts.

(** ** Keys in order of first occurrence *)

Lemma first_occurrences_elem l k : k ∈ first_occurrences l ↔ k ∈ l.
Proof.
  induction l as [|x l IH]; simpl; [reflexivity|].
  rewrite !elem_of_cons, list_elem_of_filter, IH.
  destruct (decide (k = x)); tauto.
Qed.

Lemma first_occurrences_NoDup l : NoDup (first_occurrences l).
Proof.
  induction l as [|x l IH]; simpl; [apply NoDup_nil_2|].
  apply NoDup_cons. split.
  - rewrite list_elem_of_filter. tauto.
  - apply NoDup_filter, IH.
Qed.

Lemma first_occurrences_length l : length (first_occurrences l) ≤ length l.
Proof.
  induction l as [|x l IH]; simpl; [lia|].
  pose proof (length_filter (fun y => y ≠ x) (first_occurrences l)). lia.
Qed.

Lemma first_occurrences_id l : NoDup l → first_occurrences l = l.
Proof.
  induction l as [|x l IH]; simpl; [reflexivity|].
  rewrite NoDup_cons. intros [Hx Hl]. rewrite (IH Hl). f_equal.
  clear IH Hl. induction l as [|y l IH]; [reflexivity|].
  rewrite not_elem_of_cons in Hx. destruct Hx as [Hxy Hx].
  rewrite filter_cons_True by congruence. f_equal. auto.
Qed.

Section SetAllFacts.
Context {V : Type}.
Implicit Types (m es : list (jsstring * V)) (k : jsstring).

Lemma setAll_keys es m :
  Map_keys (setAll es m) =
  Map_keys m ++ filter (fun k => k ∉ Map_keys m) (first_occurrences es.*1).
Proof.
  revert m. induction es as [|[k v] es IH]; intros m; simpl.
  - rewrite app_nil_r. reflexivity.
  - unfold setAll in *. simpl. rewrite IH, Map_keys_set.
    destruct (Map_has m k) eqn:E.
    + apply Map_has_keys in E. rewrite filter_cons_False by tauto.
      rewrite list_filter_filter. f_equal. apply list_filter_iff.
      intros x. split; [|tauto]. intros Hx. split; [exact Hx|congruence].
    + apply Map_has_false_keys in E. rewrite filter_cons_True by exact E.
      rewrite <- app_assoc. simpl. do 2 f_equal.
      rewrite list_filter_filter. apply list_filter_iff.
      intros x. rewrite not_elem_of_app, list_elem_of_singleton. tauto.
Qed.

Lemma setAll_get es m k :
  Map_get (setAll es m) k =
  match last (filter (fun e => e.1 = k) es) with
  | Some e => Some e.2
  | None => Map_get m k
  end.
Proof.
  revert m. induction es as [|[k' v] es IH]; intros m; [reflexivity|].
  unfold setAll in *. simpl. rewrite IH, Map_get_set. clear IH.
  destruct (decide (k = k')) as [->|Hne].
  - rewrite filter_cons_True by reflexivity. rewrite last_cons.
    destruct (last (filter (fun e => e.1 = k') es)); reflexivity.
  - rewrite filter_cons_False by (simpl; congruence). reflexivity.
Qed.

Lemma setAll_NoDup es m : NoDup (Map_keys m) → NoDup (Map_keys (setAll es m)).
Proof.
  revert m. induction es as [|[k v] es IH]; intros m H; [exact H|].
  apply IH, Map_keys_set_NoDup, H.
Qed.
End SetAllFacts.

Section SetAllElems.
Context {V : Type}.
Implicit Types (m es : list (jsstring * V)) (k : jsstring) (v : V).

Lemma Map_set_elem k v m e : e ∈ Map_set k v m → e = (k, v) ∨ e ∈ m.
Proof.
  induction m as [|[k' v'] m IH]; simpl.
  - rewrite list_elem_of_singleton. tauto.
  - destruct (decide (k = k')); rewrite !elem_of_cons; [tauto|].
    intros [H|H]; [tauto|]. destruct (IH H); tauto.
Qed.

Lemma setAll_elem es m e : e ∈ setAll es m → e ∈ es ∨ e ∈ m.
Proof.
  revert m. induction es as [|[k v] es IH]; intros m; [tauto|].
  unfold setAll in *. simpl. intros H. rewrite elem_of_cons.
  destruct (IH _ H) as [H'|H']; [tauto|].
  destruct (Map_set_elem _ _ _ _ H'); tauto.
Qed.
End SetAllElems.

(** ** Keys of rows *)

Lemma refOf_eq (row : Row) : refOf row = Ok (trim (firstNonEmpty row)).
Proof.
  unfold refOf, firstNonEmpty, get.
  destruct (row !! js "transaction_reference") as [[|c s]|];
    destruct (row !! js "reference") as [[|c' s']|];
    destruct (row !! js "id") as [[|c'' s'']|]; reflexivity.
Qed.

Lemma keyOf_eq (row : Row) :
  keyOf row = match trim (firstNonEmpty row) with [] => None | k => Some k end.
Proof. unfold keyOf. rewrite refOf_eq. destruct (trim _); reflexivity. Qed.

Lemma keyOf_Some_refOf (row : Row) (k : jsstring) : keyOf row = Some k → refOf row = Ok k.
Proof.
  unfold keyOf. destruct (refOf row) as [[|c s]|]; [discriminate| |discriminate].
  intros [= <-]. reflexivity.
Qed.

Lemma keyOf_Some_nonempty (row : Row) (k : jsstring) : keyOf row = Some k → k ≠ [].
Proof.
  unfold keyOf. destruct (refOf row) as [[|c s]|]; [discriminate| |discriminate].
  intros [= <-]. discriminate.
Qed.

Lemma refOf_keyOf (row : Row) (k : jsstring) : refOf row = Ok k → k ≠ [] → keyOf row = Some k.
Proof. unfold keyOf. intros ->. destruct k; [congruence|reflexivity]. Qed.

Lemma keyOf_None_refOf (row : Row) : keyOf row = None ↔ refOf row = Ok [].
Proof.
  unfold keyOf. rewrite refOf_eq. destruct (trim _); split; congruence.
Qed.

Lemma keyedRows_elem (data : list Row) (k : jsstring) (row : Row) :
  (k, row) ∈ keyedRows data ↔ row ∈ data ∧ keyOf row = Some k.
Proof.
  unfold keyedRows. rewrite list_elem_of_omap. split.
  - intros (r & Hr & E). destruct (keyOf r) eqn:Ek; simpl in E; [|discriminate].
    injection E as <- <-. auto.
  - intros [Hr E]. exists row. rewrite E. auto.
Qed.

Lemma keyedRows_length data : length (keyedRows data) ≤ length data.
Proof.
  induction data as [|r data IH]; simpl; [lia|].
  unfold keyedRows in *. simpl. destruct (keyOf r); simpl; lia.
Qed.

(** ** The indexes *)

Lemma indexRow_eq (m : JSMap) (row : Row) :
  indexRow m row =
  Ok (match keyOf row with Some k => Map_set k row m | None => m end).
Proof.
  unfold indexRow, keyOf. rewrite refOf_eq. simpl.
  destruct (trim (firstNonEmpty row)); reflexivity.
Qed.

Lemma forEach_indexRow data m :
  forEach indexRow data m = Ok (setAll (keyedRows data) m).
Proof.
  revert m. induction data as [|r data IH]; intros m; [reflexivity|].
  simpl. rewrite indexRow_eq. simpl. rewrite IH. unfold keyedRows. simpl.
  destruct (keyOf r); reflexivity.
Qed.

Lemma buildIndex_eq data : buildIndex data = Ok (indexOf data).
Proof. apply forEach_indexRow. Qed.

Lemma indexOf_NoDup data : NoDup (Map_keys (indexOf data)).
Proof. apply setAll_NoDup, NoDup_nil_2. Qed.

Lemma indexOf_keys data :
  Map_keys (indexOf data) = first_occurrences (keyedRows data).*1.
Proof.
  unfold indexOf. rewrite setAll_keys. simpl.
  induction (first_occurrences _) as [|x l IH]; [reflexivity|].
  rewrite filter_cons_True by apply not_elem_of_nil. f_equal. exact IH.
Qed.

Lemma indexOf_get data k :
  Map_get (indexOf data) k = lastWith k (keyedRows data).
Proof.
  unfold indexOf, lastWith. rewrite setAll_get.
  destruct (last _); reflexivity.
Qed.

Lemma indexOf_elem (data : list Row) (k : jsstring) (row : Row) :
  (k, row) ∈ indexOf data → row ∈ data ∧ keyOf row = Some k.
Proof.
  intros H. apply setAll_elem in H as [H|H]; [|inversion H].
  apply keyedRows_elem, H.
Qed.

Lemma indexOf_get_Some (data : list Row) (k : jsstring) (row : Row) :
  Map_get (indexOf data) k = Some row → row ∈ data ∧ keyOf row = Some k.
Proof. intros H. apply indexOf_elem, Map_get_elem, H. Qed.

Lemma indexOf_length data : length (indexOf data) ≤ length data.
Proof.
  change (length (indexOf data)) with (length (indexOf data)).
  rewrite <- (length_fmap fst (indexOf data)).
  change (fst <$> indexOf data) with (Map_keys (indexOf data)).
  rewrite indexOf_keys.
  etransitivity; [apply first_occurrences_length|].
  rewrite length_fmap. apply keyedRows_length.
Qed.

(** ** The two classification loops *)

Section EngineFacts.
Variable toLowerCase : jsstring → jsstring.

Lemma statusOf_eq (txn : Row) :
  statusOf toLowerCase txn = Ok (statusText toLowerCase txn).
Proof.
  unfold statusOf, statusText, get.
  destruct (txn !! js "status") as [[|c s]|]; reflexivity.
Qed.

Lemma classify_eq (providerMap : JSMap) (results : Results) (ref : jsstring)
    (txn : Row) :
  classify toLowerCase providerMap results (ref, txn) =
  Ok (match Map_get providerMap ref with
      | Some providerTxn =>
          if fully_matched (matchRecord toLowerCase ref txn providerTxn)
          then push_matched results (matchRecord toLowerCase ref txn providerTxn)
          else push_mismatched results (matchRecord toLowerCase ref txn providerTxn)
      | None => push_internal_only results txn
      end).
Proof.
  unfold classify. rewrite Map_has_get.
  destruct (Map_get providerMap ref) as [providerTxn|]; [|reflexivity].
  rewrite bool_decide_eq_true_2 by eauto.
  rewrite !statusOf_eq. reflexivity.
Qed.

Lemma joinRecords_cons_Some (providerMap es : JSMap) (k : jsstring)
    (txn providerTxn : Row) :
  Map_get providerMap k = Some providerTxn →
  joinRecords toLowerCase ((k, txn) :: es) providerMap =
  matchRecord toLowerCase k txn providerTxn :: joinRecords toLowerCase es providerMap.
Proof. intros E. unfold joinRecords. simpl. rewrite E. reflexivity. Qed.

Lemma joinRecords_cons_None (providerMap es : JSMap) (k : jsstring) (txn : Row) :
  Map_get providerMap k = None →
  joinRecords toLowerCase ((k, txn) :: es) providerMap =
  joinRecords toLowerCase es providerMap.
Proof. intros E. unfold joinRecords. simpl. rewrite E. reflexivity. Qed.

Lemma forEach_classify (providerMap es : JSMap) (r : Results) :
  forEach (classify toLowerCase providerMap) es r =
  Ok (afterClassify toLowerCase providerMap es r).
Proof.
  revert r. induction es as [|[k txn] es IH]; intros r.
  - destruct r. unfold afterClassify. simpl. rewrite !app_nil_r. reflexivity.
  - rewrite forEach_cons, classify_eq, exc_bind_Ok, IH. f_equal.
    unfold afterClassify.
    destruct (Map_get providerMap k) as [ptxn|] eqn:E.
    + assert (Hhas : Map_has providerMap k ≠ false).
      { rewrite Map_has_get, bool_decide_eq_true_2 by eauto. discriminate. }
      rewrite (joinRecords_cons_Some _ _ _ _ _ E).
      rewrite (filter_cons_False (fun e => _ = false) (k, txn)) by exact Hhas.
      destruct (fully_matched (matchRecord toLowerCase k txn ptxn)) eqn:F.
      * rewrite filter_cons_True by exact F.
        rewrite filter_cons_False by congruence.
        simpl. rewrite <- app_assoc. reflexivity.
      * rewrite filter_cons_False by congruence.
        rewrite filter_cons_True by exact F.
        simpl. rewrite <- app_assoc. reflexivity.
    + assert (Hhas : Map_has providerMap k = false).
      { rewrite Map_has_get. apply bool_decide_eq_false_2.
        rewrite E. intros [x Hx]. discriminate. }
      rewrite (joinRecords_cons_None _ _ _ _ E).
      rewrite (filter_cons_True (fun e => _ = false) (k, txn)) by exact Hhas.
      simpl. rewrite <- app_assoc. reflexivity.
Qed.

Lemma providerOnly_eq (internalMap : JSMap) (r : Results) (k : jsstring)
    (txn : Row) :
  providerOnly internalMap r (k, txn) =
  Ok (if negb (Map_has internalMap k) then push_provider_only r txn else r).
Proof. reflexivity. Qed.

Lemma forEach_providerOnly (internalMap es : JSMap) (r : Results) :
  forEach (providerOnly internalMap) es r =
  Ok (afterProviderOnly internalMap es r).
Proof.
  revert r. induction es as [|[k txn] es IH]; intros r.
  - destruct r. unfold afterProviderOnly. simpl. rewrite !app_nil_r. reflexivity.
  - rewrite forEach_cons, providerOnly_eq, exc_bind_Ok, IH. f_equal.
    unfold afterProviderOnly.
    destruct (Map_has internalMap k) eqn:E; simpl.
    + rewrite filter_cons_False by (simpl; congruence). reflexivity.
    + rewrite filter_cons_True by exact E. simpl.
      rewrite <- app_assoc. reflexivity.
Qed.

Lemma reconcileTransactions_eq (this : ReconciliationTool)
    (internalData providerData : list Row) :
  reconcileTransactions toLowerCase this internalData providerData =
  Ok (reconciled toLowerCase internalData providerData).
Proof.
  unfold reconcileTransactions.
  rewrite !buildIndex_eq. simpl.
  rewrite forEach_classify. simpl.
  rewrite forEach_providerOnly. reflexivity.
Qed.
End EngineFacts.

(** ** The join *)

Lemma filter_comm {A} (P Q : A → Prop) `{∀ x, Decision (P x)}
    `{∀ x, Decision (Q x)} (l : list A) :
  filter P (filter Q l) = filter Q (filter P l).
Proof. rewrite !list_filter_filter. apply list_filter_iff. tauto. Qed.

Lemma filter_none {A} (P : A → Prop) `{∀ x, Decision (P x)} (l : list A) :
  (∀ x, x ∈ l → ¬ P x) → filter P l = [].
Proof.
  induction l as [|x l IH]; intros Hl; [reflexivity|].
  rewrite filter_cons_False by (apply Hl, list_elem_of_here).
  apply IH. intros y Hy. apply Hl, list_elem_of_further, Hy.
Qed.

Lemma fmap_filter_fst {V} (P : jsstring → Prop) `{∀ k, Decision (P k)}
    (m : list (jsstring * V)) :
  (filter (fun e => P e.1) m).*1 = filter P m.*1.
Proof.
  induction m as [|[k v] m IH]; [reflexivity|].
  rewrite fmap_cons. simpl fst. destruct (decide (P k)) as [Hk|Hk].
  - rewrite (filter_cons_True P) by exact Hk.
    rewrite filter_cons_True by exact Hk. rewrite fmap_cons, IH. reflexivity.
  - rewrite (filter_cons_False P) by exact Hk.
    rewrite filter_cons_False by exact Hk. exact IH.
Qed.

Lemma omap_keyOf_entries (es : JSMap) :
  (∀ k (txn : Row), (k, txn) ∈ es → keyOf txn = Some k) →
  omap keyOf es.*2 = es.*1.
Proof.
  induction es as [|[k txn] es IH]; intros H; [reflexivity|].
  rewrite !fmap_cons. simpl. rewrite (H k txn) by apply list_elem_of_here.
  f_equal. apply IH. intros k' txn' H'. apply H, list_elem_of_further, H'.
Qed.

Section JoinFacts.
Variable toLowerCase : jsstring → jsstring.

Lemma joinRecords_elem (internalMap providerMap : JSMap) (d : MatchData) :
  d ∈ joinRecords toLowerCase internalMap providerMap ↔
  ∃ (k : jsstring) (txn providerTxn : Row),
    (k, txn) ∈ internalMap ∧ Map_get providerMap k = Some providerTxn ∧
    d = matchRecord toLowerCase k txn providerTxn.
Proof.
  unfold joinRecords. rewrite list_elem_of_omap. split.
  - intros ([k txn] & He & E). simpl in E.
    destruct (Map_get providerMap k) as [p|] eqn:Ep; [|discriminate].
    injection E as <-. eauto 6.
  - intros (k & txn & p & He & Ep & ->). exists (k, txn). simpl.
    rewrite Ep. auto.
Qed.

Lemma joinRecords_keys (internalMap providerMap : JSMap) :
  transaction_reference <$> joinRecords toLowerCase internalMap providerMap =
  filter (fun k => Map_has providerMap k = true) (Map_keys internalMap).
Proof.
  induction internalMap as [|[k txn] es IH]; [reflexivity|].
  unfold Map_keys. rewrite fmap_cons. simpl fst.
  destruct (Map_get providerMap k) as [p|] eqn:E.
  - rewrite (joinRecords_cons_Some _ _ _ _ _ _ E), fmap_cons.
    rewrite filter_cons_True.
    + simpl. f_equal. exact IH.
    + rewrite Map_has_get. apply bool_decide_eq_true_2. eauto.
  - rewrite (joinRecords_cons_None _ _ _ _ _ E).
    rewrite filter_cons_False; [exact IH|].
    rewrite Map_has_get, bool_decide_eq_false_2; [discriminate|].
    rewrite E. intros [x Hx]. discriminate.
Qed.

Lemma joinRecords_NoDup (internalMap providerMap : JSMap) :
  NoDup (Map_keys internalMap) →
  NoDup (transaction_reference <$> joinRecords toLowerCase internalMap providerMap).
Proof. intros H. rewrite joinRecords_keys. apply NoDup_filter, H. Qed.

Lemma joinRecords_at (internalMap providerMap : JSMap) (k : jsstring)
    (txn providerTxn : Row) :
  NoDup (Map_keys internalMap) →
  Map_get internalMap k = Some txn →
  Map_get providerMap k = Some providerTxn →
  filter (fun d => transaction_reference d = k)
    (joinRecords toLowerCase internalMap providerMap) =
  [matchRecord toLowerCase k txn providerTxn].
Proof.
  intros Hnd Hi Hp. induction internalMap as [|[k0 txn0] es IH]; [discriminate|].
  unfold Map_keys in Hnd. rewrite fmap_cons in Hnd. simpl in Hnd, Hi.
  apply NoDup_cons in Hnd as [Hk0 Hnd].
  destruct (decide (k = k0)) as [->|Hne].
  - injection Hi as ->.
    rewrite (joinRecords_cons_Some _ _ _ _ _ _ Hp).
    rewrite filter_cons_True by reflexivity. f_equal.
    apply filter_none. intros d Hd Hkd.
    apply joinRecords_elem in Hd as (k' & t' & p' & He & _ & ->).
    simpl in Hkd. subst k'. apply Hk0.
    apply (list_elem_of_fmap_2 fst) in He. exact He.
  - destruct (Map_get providerMap k0) as [p0|] eqn:E0.
    + rewrite (joinRecords_cons_Some _ _ _ _ _ _ E0).
      rewrite filter_cons_False by (simpl; congruence). auto.
    + rewrite (joinRecords_cons_None _ _ _ _ _ E0). auto.
Qed.

Lemma joinRecords_split (internalMap providerMap : JSMap) :
  filter (fun d => fully_matched d = true)
    (joinRecords toLowerCase internalMap providerMap) ++
  filter (fun d => fully_matched d = false)
    (joinRecords toLowerCase internalMap providerMap)
  ≡ₚ joinRecords toLowerCase internalMap providerMap.
Proof.
  rewrite <- (filter_app_complement (fun d => fully_matched d = true)
                (joinRecords toLowerCase internalMap providerMap)) at 3.
  f_equiv. apply reflexive_eq, list_filter_iff. intros d.
  destruct (fully_matched d); split; congruence.
Qed.

Lemma joinRecords_length (internalMap providerMap : JSMap) :
  length (joinRecords toLowerCase internalMap providerMap) =
  length (filter (fun e => Map_has providerMap e.1 = true) internalMap).
Proof.
  rewrite <- (length_fmap transaction_reference), joinRecords_keys.
  unfold Map_keys.
  rewrite <- (fmap_filter_fst (fun k => Map_has providerMap k = true)).
  apply length_fmap.
Qed.
End JoinFacts.

(** ** Rows of the categories *)

Section CategoryFacts.
Variable toLowerCase : jsstring → jsstring.

Lemma internal_only_elem (internalData providerData : list Row) (txn : Row) :
  txn ∈ internal_only (reconciled toLowerCase internalData providerData) ↔
  ∃ k : jsstring,
    Map_get (indexOf internalData) k = Some txn ∧
    Map_has (indexOf providerData) k = false.
Proof.
  simpl. rewrite list_elem_of_fmap. split.
  - intros ([k t] & -> & H). apply list_elem_of_filter in H as [Hh He].
    exists k. split; [|exact Hh].
    apply Map_elem_get; [apply indexOf_NoDup | exact He].
  - intros (k & Hg & Hh). exists (k, txn). split; [reflexivity|].
    apply list_elem_of_filter. split; [exact Hh | apply Map_get_elem, Hg].
Qed.

Lemma provider_only_elem (internalData providerData : list Row) (txn : Row) :
  txn ∈ provider_only (reconciled toLowerCase internalData providerData) ↔
  ∃ k : jsstring,
    Map_get (indexOf providerData) k = Some txn ∧
    Map_has (indexOf internalData) k = false.
Proof.
  simpl. rewrite list_elem_of_fmap. split.
  - intros ([k t] & -> & H). apply list_elem_of_filter in H as [Hh He].
    exists k. split; [|exact Hh].
    apply Map_elem_get; [apply indexOf_NoDup | exact He].
  - intros (k & Hg & Hh). exists (k, txn). split; [reflexivity|].
    apply list_elem_of_filter. split; [exact Hh | apply Map_get_elem, Hg].
Qed.

Lemma joined_elem (internalData providerData : list Row) (d : MatchData) :
  d ∈ matched (reconciled toLowerCase internalData providerData)
      ++ mismatched (reconciled toLowerCase internalData providerData) ↔
  ∃ (k : jsstring) (txn providerTxn : Row),
    Map_get (indexOf internalData) k = Some txn ∧
    Map_get (indexOf providerData) k = Some providerTxn ∧
    d = matchRecord toLowerCase k txn providerTxn.
Proof.
  simpl. rewrite joinRecords_split, joinRecords_elem. split.
  - intros (k & t & p & He & Hp & ->). exists k, t, p.
    split; [|auto]. apply Map_elem_get; [apply indexOf_NoDup | exact He].
  - intros (k & t & p & Hi & Hp & ->). exists k, t, p.
    split; [apply Map_get_elem, Hi | auto].
Qed.

Lemma joined_at (internalData providerData : list Row) (k : jsstring)
    (txn providerTxn : Row) :
  Map_get (indexOf internalData) k = Some txn →
  Map_get (indexOf providerData) k = Some providerTxn →
  filter (fun d => transaction_reference d = k)
    (matched (reconciled toLowerCase internalData providerData)
     ++ mismatched (reconciled toLowerCase internalData providerData))
  = [matchRecord toLowerCase k txn providerTxn].
Proof.
  intros Hi Hp. simpl.
  rewrite filter_app, !(filter_comm (fun x => _ = k)).
  rewrite (joinRecords_at toLowerCase _ _ _ _ _ (indexOf_NoDup internalData) Hi Hp).
  destruct (fully_matched (matchRecord toLowerCase k txn providerTxn)) eqn:F.
  - rewrite filter_cons_True, filter_cons_False by congruence. reflexivity.
  - rewrite filter_cons_False, filter_cons_True by congruence. reflexivity.
Qed.

(** C1.  For a key held by both indexes the engine builds exactly one Match
    Record, from the two rows the indexes hold; its [fully_matched] is
    [amount_match && status_match]; it goes to [matched] when that is true
    and to [mismatched] when it is false; and no row of [internal_only] or
    [provider_only] has that key. *)
Theorem shared_key_one_record (this : ReconciliationTool)
    (internalData providerData : list Row) (internalMap providerMap : JSMap)
    (ref : jsstring) (internalTxn providerTxn : Row) :
  buildIndex internalData = Ok internalMap →
  buildIndex providerData = Ok providerMap →
  Map_get internalMap ref = Some internalTxn →
  Map_get providerMap ref = Some providerTxn →
  ∃ results d,
    reconcileTransactions toLowerCase this internalData providerData = Ok results
    ∧ filter (fun x => transaction_reference x = ref)
        (matched results ++ mismatched results) = [d]
    ∧ transaction_reference d = ref
    ∧ internal d = internalTxn ∧ provider d = providerTxn
    ∧ fully_matched d = amount_match d && status_match d
    ∧ (fully_matched d = true → d ∈ matched results ∧ d ∉ mismatched results)
    ∧ (fully_matched d = false → d ∈ mismatched results ∧ d ∉ matched results)
    ∧ (∀ txn : Row,
         txn ∈ internal_only results ∨ txn ∈ provider_only results →
         refOf txn ≠ Ok ref).
Proof.
  rewrite !buildIndex_eq. intros [= <-] [= <-] Hi Hp.
  exists (reconciled toLowerCase internalData providerData),
         (matchRecord toLowerCase ref internalTxn providerTxn).
  assert (Hin : matchRecord toLowerCase ref internalTxn providerTxn
                ∈ joinRecords toLowerCase (indexOf internalData) (indexOf providerData)).
  { apply joinRecords_elem. exists ref, internalTxn, providerTxn.
    split; [apply Map_get_elem, Hi | auto]. }
  split; [apply reconcileTransactions_eq|].
  split; [apply joined_at; assumption|].
  do 4 (split; [reflexivity|]).
  split; [|split].
  - intros F. simpl. rewrite !list_elem_of_filter. split; [auto|].
    intros [F' _]. congruence.
  - intros F. simpl. rewrite !list_elem_of_filter. split; [auto|].
    intros [F' _]. congruence.
  - intros txn [H|H] Href.
    + apply internal_only_elem in H as (k & Hg & Hh).
      apply indexOf_get_Some in Hg as [_ Hk].
      apply keyOf_Some_refOf in Hk. rewrite Hk in Href. injection Href as ->.
      rewrite (Map_get_has _ _ _ Hp) in Hh. discriminate.
    + apply provider_only_elem in H as (k & Hg & Hh).
      apply indexOf_get_Some in Hg as [_ Hk].
      apply keyOf_Some_refOf in Hk. rewrite Hk in Href. injection Href as ->.
      rewrite (Map_get_has _ _ _ Hi) in Hh. discriminate.
Qed.
End CategoryFacts.

Section PartitionFacts.
Variable toLowerCase : jsstring → jsstring.

Lemma only_rows_keys (m other : JSMap) :
  (∀ k (txn : Row), (k, txn) ∈ m → keyOf txn = Some k) →
  omap keyOf (filter (fun e => Map_has other e.1 = false) m).*2 =
  filter (fun k => Map_has other k = false) (Map_keys m).
Proof.
  intros H. rewrite omap_keyOf_entries.
  - exact (fmap_filter_fst (fun k => Map_has other k = false) m).
  - intros k txn Hk. apply list_elem_of_filter in Hk as [_ Hk]. auto.
Qed.

Lemma categoryKeys_reconciled (internalData providerData : list Row) :
  categoryKeys (reconciled toLowerCase internalData providerData) ≡ₚ
  Map_keys (indexOf internalData)
  ++ filter (fun k => Map_has (indexOf internalData) k = false)
       (Map_keys (indexOf providerData)).
Proof.
  unfold categoryKeys. simpl.
  rewrite !only_rows_keys by apply indexOf_elem.
  rewrite app_assoc, <- fmap_app, joinRecords_split, joinRecords_keys.
  rewrite app_assoc. f_equiv.
  rewrite <- (filter_app_complement
                (fun k => Map_has (indexOf providerData) k = true)
                (Map_keys (indexOf internalData))) at 3.
  f_equiv. apply reflexive_eq, list_filter_iff. intros k.
  destruct (Map_has (indexOf providerData) k); split; congruence.
Qed.

(** C10.  Every Match Record of [matched] and [mismatched] carries the two
    rows the indexes hold under its key, and the keys of the four
    categories are pairwise distinct and cover the two indexes: a key of
    both indexes is in [matched] or [mismatched], a key of the internal
    index alone is in [internal_only], a key of the provider index alone is
    in [provider_only]. *)
Theorem categories_partition_keys (this : ReconciliationTool)
    (internalData providerData : list Row) :
  ∃ results internalMap providerMap,
    reconcileTransactions toLowerCase this internalData providerData = Ok results
    ∧ buildIndex internalData = Ok internalMap
    ∧ buildIndex providerData = Ok providerMap
    ∧ (∀ d, d ∈ matched results ++ mismatched results →
         Map_get internalMap (transaction_reference d) = Some (internal d)
         ∧ Map_get providerMap (transaction_reference d) = Some (provider d))
    ∧ (∀ txn : Row, txn ∈ internal_only results ++ provider_only results →
         is_Some (keyOf txn))
    ∧ NoDup (categoryKeys results)
    ∧ (∀ k : jsstring,
         (k ∈ Map_keys internalMap ∧ k ∈ Map_keys providerMap ↔
          k ∈ (transaction_reference <$> (matched results ++ mismatched results)))
         ∧ (k ∈ Map_keys internalMap ∧ k ∉ Map_keys providerMap ↔
            k ∈ omap keyOf (internal_only results))
         ∧ ((k ∉ Map_keys internalMap) ∧ k ∈ Map_keys providerMap ↔
            k ∈ omap keyOf (provider_only results))).
Proof.
  exists (reconciled toLowerCase internalData providerData),
         (indexOf internalData), (indexOf providerData).
  split; [apply reconcileTransactions_eq|].
  do 2 (split; [apply buildIndex_eq|]).
  split; [|split; [|split]].
  - intros d Hd. apply joined_elem in Hd as (k & t & p & Hi & Hp & ->).
    simpl. auto.
  - intros txn Htxn. apply elem_of_app in Htxn as [H|H].
    + apply internal_only_elem in H as (k & Hg & _).
      apply indexOf_get_Some in Hg as [_ ->]. eauto.
    + apply provider_only_elem in H as (k & Hg & _).
      apply indexOf_get_Some in Hg as [_ ->]. eauto.
  - rewrite categoryKeys_reconciled. apply NoDup_app. split; [|split].
    + apply indexOf_NoDup.
    + intros k Hk Hk'. apply list_elem_of_filter in Hk' as [Hh _].
      apply Map_has_false_keys in Hh. contradiction.
    + apply NoDup_filter, indexOf_NoDup.
  - intros k. simpl. rewrite !only_rows_keys by apply indexOf_elem.
    rewrite joinRecords_split, joinRecords_keys, !list_elem_of_filter.
    rewrite Map_has_keys, !Map_has_false_keys. tauto.
Qed.
End PartitionFacts.

(** ** Counts *)

Lemma blankKeys_keyOf (row : Row) : blankKeys row = true → keyOf row = None.
Proof.
  unfold blankKeys, blankField. rewrite keyOf_eq. unfold firstNonEmpty.
  rewrite !andb_true_iff.
  destruct (row !! js "transaction_reference") as [[|c s]|];
    destruct (row !! js "reference") as [[|c' s']|];
    destruct (row !! js "id") as [[|c'' s'']|]; simpl default;
    rewrite ?bool_decide_eq_true; intros [[H1 H2] H3];
    rewrite ?H1, ?H2, ?H3; reflexivity.
Qed.

Lemma shared_keys_perm {V W} (m : list (jsstring * V)) (m' : list (jsstring * W)) :
  NoDup (Map_keys m) → NoDup (Map_keys m') →
  filter (fun k => Map_has m' k = true) (Map_keys m) ≡ₚ
  filter (fun k => Map_has m k = true) (Map_keys m').
Proof.
  intros H H'. apply NoDup_Permutation; [apply NoDup_filter, H | apply NoDup_filter, H' |].
  intros k. rewrite !list_elem_of_filter, !Map_has_keys. tauto.
Qed.

Lemma filter_split_length {A} (P : A → bool) (l : list A) :
  length (filter (fun x => P x = true) l) + length (filter (fun x => P x = false) l)
  = length l.
Proof.
  induction l as [|x l IH]; [reflexivity|].
  destruct (P x) eqn:E.
  - rewrite filter_cons_True, filter_cons_False by congruence. simpl. lia.
  - rewrite filter_cons_False, filter_cons_True by congruence. simpl. lia.
Qed.

Section CountFacts.
Variable toLowerCase : jsstring → jsstring.

Lemma keyless_row_nowhere (internalData providerData : list Row) (row : Row) :
  keyOf row = None →
  (row ∉ internal_only (reconciled toLowerCase internalData providerData))
  ∧ (row ∉ provider_only (reconciled toLowerCase internalData providerData))
  ∧ ∀ d, d ∈ matched (reconciled toLowerCase internalData providerData)
             ++ mismatched (reconciled toLowerCase internalData providerData) →
         internal d ≠ row ∧ provider d ≠ row.
Proof.
  intros Hk. split; [|split].
  - intros H. apply internal_only_elem in H as (k & Hg & _).
    apply indexOf_get_Some in Hg as [_ Hg]. congruence.
  - intros H. apply provider_only_elem in H as (k & Hg & _).
    apply indexOf_get_Some in Hg as [_ Hg]. congruence.
  - intros d Hd. apply joined_elem in Hd as (k & t & p & Hi & Hp & ->).
    apply indexOf_get_Some in Hi as [_ Hi].
    apply indexOf_get_Some in Hp as [_ Hp].
    simpl. split; congruence.
Qed.

(** C7.  [matched], [mismatched] and [internal_only] together hold as many
    entries as the internal rows produce distinct keys, which is at most
    [summary.total_internal], the number of internal rows; likewise
    [matched], [mismatched] and [provider_only] for the provider side.  A
    row whose three key columns are absent or blank has no key, is in no
    category, and is counted by the totals all the same, since these are
    the lengths of the inputs. *)
Theorem category_counts (this : ReconciliationTool)
    (internalData providerData : list Row) :
  ∃ results s,
    reconcileTransactions toLowerCase this internalData providerData = Ok results
    ∧ summary results = Some s
    ∧ length (matched results) + length (mismatched results)
        + length (internal_only results)
      = length (first_occurrences (keyedRows internalData).*1)
    ∧ length (first_occurrences (keyedRows internalData).*1) ≤ total_internal s
    ∧ length (matched results) + length (mismatched results)
        + length (provider_only results)
      = length (first_occurrences (keyedRows providerData).*1)
    ∧ length (first_occurrences (keyedRows providerData).*1) ≤ total_provider s
    ∧ total_internal s = length internalData
    ∧ total_provider s = length providerData
    ∧ matched_count s = length (matched results)
    ∧ mismatched_count s = length (mismatched results)
    ∧ internal_only_count s = length (internal_only results)
    ∧ provider_only_count s = length (provider_only results)
    ∧ (∀ row : Row, blankKeys row = true →
         keyOf row = None
         ∧ (row ∉ internal_only results) ∧ (row ∉ provider_only results)
         ∧ ∀ d, d ∈ matched results ++ mismatched results →
                internal d ≠ row ∧ provider d ≠ row).
Proof.
  exists (reconciled toLowerCase internalData providerData). eexists.
  split; [apply reconcileTransactions_eq|].
  split; [reflexivity|].
  assert (Hj : length (matched (reconciled toLowerCase internalData providerData))
               + length (mismatched (reconciled toLowerCase internalData providerData))
               = length (joinRecords toLowerCase (indexOf internalData)
                           (indexOf providerData))).
  { rewrite <- length_app. simpl. rewrite joinRecords_split. reflexivity. }
  assert (Hlen : ∀ data, length (indexOf data)
                         = length (first_occurrences (keyedRows data).*1)).
  { intros data. rewrite <- indexOf_keys. unfold Map_keys.
    rewrite length_fmap. reflexivity. }
  split; [|split; [|split; [|split]]].
  - rewrite Hj, joinRecords_length. simpl. rewrite length_fmap.
    rewrite <- Hlen.
    apply (filter_split_length (fun e => Map_has (indexOf providerData) e.1)).
  - simpl. rewrite <- Hlen. apply indexOf_length.
  - rewrite Hj. rewrite <- (length_fmap transaction_reference), joinRecords_keys.
    rewrite (shared_keys_perm _ _ (indexOf_NoDup internalData)
               (indexOf_NoDup providerData)).
    simpl. rewrite length_fmap, <- Hlen.
    unfold Map_keys.
    rewrite <- (fmap_filter_fst (fun k => Map_has (indexOf internalData) k = true)
                  (indexOf providerData)).
    rewrite length_fmap.
    apply (filter_split_length (fun e => Map_has (indexOf internalData) e.1)).
  - simpl. rewrite <- Hlen. apply indexOf_length.
  - do 6 (split; [reflexivity|]).
    intros row Hb. apply blankKeys_keyOf in Hb.
    split; [exact Hb|].
    destruct (keyless_row_nowhere internalData providerData row Hb)
      as (H1 & H2 & H3).
    auto.
Qed.
End CountFacts.

(** ** Duplicate keys *)

Lemma filter_key_length {A} (f : A → jsstring) (k : jsstring) (l : list A) :
  NoDup (f <$> l) → length (filter (fun x => f x = k) l) ≤ 1.
Proof.
  induction l as [|x l IH]; [simpl; lia|].
  rewrite fmap_cons, NoDup_cons. intros [Hx Hl].
  destruct (decide (f x = k)) as [E|E].
  - rewrite filter_cons_True by exact E.
    rewrite filter_none; [simpl; lia|].
    intros y Hy Ey. apply Hx. rewrite E, <- Ey.
    apply list_elem_of_fmap_2, Hy.
  - rewrite filter_cons_False by exact E. auto.
Qed.

Lemma scenarioD_internal_index :
  indexOf scenarioD_internal = [(js "T4", T4_amount2)].
Proof. vm_compute. reflexivity. Qed.

Lemma scenarioD_provider_index :
  indexOf scenarioD_provider = [(js "T4", T4_amount2)].
Proof. vm_compute. reflexivity. Qed.

Lemma T4_amounts_close : amountsClose (amountOf T4_amount2) (amountOf T4_amount2) = true.
Proof. vm_compute. reflexivity. Qed.

Section DuplicateFacts.
Variable toLowerCase : jsstring → jsstring.

Lemma joined_keys_NoDup (internalData providerData : list Row) :
  NoDup (transaction_reference <$>
           (matched (reconciled toLowerCase internalData providerData)
            ++ mismatched (reconciled toLowerCase internalData providerData))).
Proof.
  simpl. rewrite joinRecords_split.
  apply joinRecords_NoDup, indexOf_NoDup.
Qed.

(** C5.  Within one side a later row with the same key replaces the earlier
    one in the index while the key stays where it first occurred.  A key
    gets at most one Match Record, and exactly one, built from the last row
    of either side with that key, when both sides have it.  In Scenario D
    the second internal row (amount 2) is the one kept, and the single Match
    Record is fully matched. *)
Theorem duplicate_key_last_wins (this : ReconciliationTool) :
  (∀ data : list Row, ∃ m : JSMap,
     buildIndex data = Ok m
     ∧ Map_keys m = first_occurrences (keyedRows data).*1
     ∧ NoDup (Map_keys m)
     ∧ ∀ k, Map_get m k = lastWith k (keyedRows data))
  ∧ (∀ internalData providerData : list Row, ∃ results,
       reconcileTransactions toLowerCase this internalData providerData = Ok results
       ∧ ∀ ref : jsstring,
           length (filter (fun d => transaction_reference d = ref)
                     (matched results ++ mismatched results)) ≤ 1)
  ∧ (∀ (internalData providerData : list Row) (ref : jsstring)
       (internalTxn providerTxn : Row),
       lastWith ref (keyedRows internalData) = Some internalTxn →
       lastWith ref (keyedRows providerData) = Some providerTxn →
       ∃ results d,
         reconcileTransactions toLowerCase this internalData providerData
           = Ok results
         ∧ filter (fun d => transaction_reference d = ref)
             (matched results ++ mismatched results) = [d]
         ∧ internal d = internalTxn ∧ provider d = providerTxn)
  ∧ buildIndex scenarioD_internal = Ok [(js "T4", T4_amount2)]
  ∧ reconcileTransactions toLowerCase this scenarioD_internal scenarioD_provider =
    Ok {| matched :=
            [ {| transaction_reference := js "T4";
                 internal := T4_amount2;
                 provider := T4_amount2;
                 amount_match := true;
                 status_match := true;
                 fully_matched := true |} ];
          mismatched := [];
          internal_only := [];
          provider_only := [];
          summary :=
            Some {| total_internal := 2; total_provider := 1;
                    matched_count := 1; mismatched_count := 0;
                    internal_only_count := 0; provider_only_count := 0 |} |}.
Proof.
  split; [|split; [|split; [|split]]].
  - intros data. exists (indexOf data).
    split; [apply buildIndex_eq|].
    split; [apply indexOf_keys|].
    split; [apply indexOf_NoDup|].
    intros k. apply indexOf_get.
  - intros internalData providerData.
    exists (reconciled toLowerCase internalData providerData).
    split; [apply reconcileTransactions_eq|].
    intros ref. apply filter_key_length, joined_keys_NoDup.
  - intros internalData providerData ref internalTxn providerTxn Hi Hp.
    rewrite <- indexOf_get in Hi, Hp.
    exists (reconciled toLowerCase internalData providerData),
           (matchRecord toLowerCase ref internalTxn providerTxn).
    split; [apply reconcileTransactions_eq|].
    split; [apply joined_at; assumption|]. split; reflexivity.
  - rewrite buildIndex_eq, scenarioD_internal_index. reflexivity.
  - rewrite reconcileTransactions_eq. unfold reconciled.
    rewrite scenarioD_internal_index, scenarioD_provider_index.
    assert (Hj : joinRecords toLowerCase [(js "T4", T4_amount2)]
                   [(js "T4", T4_amount2)]
                 = [ {| transaction_reference := js "T4";
                        internal := T4_amount2;
                        provider := T4_amount2;
                        amount_match := true;
                        status_match := true;
                        fully_matched := true |} ]).
    { rewrite (joinRecords_cons_Some toLowerCase _ _ _ _ T4_amount2)
        by (vm_compute; reflexivity).
      unfold matchRecord. rewrite T4_amounts_close.
      rewrite bool_decide_eq_true_2 by reflexivity. reflexivity. }
    rewrite Hj. reflexivity.
Qed.
End DuplicateFacts.

(** ** Disjoint key sets *)

Lemma filter_all {A} (P : A → Prop) `{∀ x, Decision (P x)} (l : list A) :
  (∀ x, x ∈ l → P x) → filter P l = l.
Proof.
  induction l as [|x l IH]; intros Hl; [reflexivity|].
  rewrite filter_cons_True by (apply Hl, list_elem_of_here).
  f_equal. apply IH. intros y Hy. apply Hl, list_elem_of_further, Hy.
Qed.

Lemma Map_set_fresh {V} (k : jsstring) (v : V) (m : list (jsstring * V)) :
  k ∉ Map_keys m → Map_set k v m = m ++ [(k, v)].
Proof.
  unfold Map_keys. induction m as [|[k' v'] m IH]; [reflexivity|].
  rewrite fmap_cons, not_elem_of_cons. simpl. intros [Hne Hk].
  destruct (decide (k = k')); [contradiction|]. rewrite IH by exact Hk.
  reflexivity.
Qed.

Lemma setAll_fresh {V} (es m : list (jsstring * V)) :
  NoDup (m.*1 ++ es.*1) → setAll es m = m ++ es.
Proof.
  revert m. induction es as [|[k v] es IH]; intros m H.
  - rewrite app_nil_r. reflexivity.
  - unfold setAll in *. simpl. rewrite fmap_cons in H. simpl in H.
    rewrite Map_set_fresh.
    + rewrite IH; [rewrite <- app_assoc; reflexivity|].
      rewrite fmap_app, <- app_assoc. exact H.
    + apply NoDup_app in H as (_ & H & _). intros Hk.
      apply (H k Hk), list_elem_of_here.
Qed.

Lemma entries_by_key (m : JSMap) :
  NoDup (Map_keys m) → m.*2 = omap (Map_get m) (Map_keys m).
Proof.
  unfold Map_keys. induction m as [|[k v] m IH]; [reflexivity|].
  rewrite !fmap_cons, NoDup_cons. simpl. intros [Hk Hm].
  destruct (decide (k = k)); [|congruence]. f_equal.
  rewrite IH by exact Hm. apply list_omap_ext.
  apply Forall2_same_length_lookup_2; [reflexivity|].
  intros i x y Hx Hy. rewrite Hx in Hy. injection Hy as <-.
  destruct (decide (x = k)) as [->|]; [|reflexivity].
  exfalso. apply Hk. apply list_elem_of_lookup. eauto.
Qed.

Section DisjointFacts.
Variable toLowerCase : jsstring → jsstring.

Lemma joinRecords_disjoint (internalMap providerMap : JSMap) :
  (∀ k, k ∈ Map_keys internalMap → k ∉ Map_keys providerMap) →
  joinRecords toLowerCase internalMap providerMap = [].
Proof.
  intros H. apply fmap_nil_inv with (f := transaction_reference).
  rewrite joinRecords_keys. apply filter_none.
  intros k Hk Hh. apply Map_has_keys in Hh. exact (H k Hk Hh).
Qed.

(** C6, as the engine has it.  When no key is in both indexes, [matched]
    and [mismatched] are empty, and [internal_only] and [provider_only]
    hold the rows of the two indexes: for each distinct key of a side, in
    the order of first occurrence, the last row of that side with the key.
    When the keys of a side are pairwise distinct these are exactly the
    rows of that side that produced a key, in input order. *)
Theorem disjoint_keys_only (this : ReconciliationTool)
    (internalData providerData : list Row) (internalMap providerMap : JSMap) :
  buildIndex internalData = Ok internalMap →
  buildIndex providerData = Ok providerMap →
  (∀ k, k ∈ Map_keys internalMap → k ∉ Map_keys providerMap) →
  ∃ results,
    reconcileTransactions toLowerCase this internalData providerData = Ok results
    ∧ matched results = [] ∧ mismatched results = []
    ∧ internal_only results =
        omap (fun k => lastWith k (keyedRows internalData))
          (first_occurrences (keyedRows internalData).*1)
    ∧ provider_only results =
        omap (fun k => lastWith k (keyedRows providerData))
          (first_occurrences (keyedRows providerData).*1)
    ∧ (NoDup (keyedRows internalData).*1 →
         internal_only results = (keyedRows internalData).*2)
    ∧ (NoDup (keyedRows providerData).*1 →
         provider_only results = (keyedRows providerData).*2).
Proof.
  rewrite !buildIndex_eq. intros [= <-] [= <-] Hdis.
  exists (reconciled toLowerCase internalData providerData).
  split; [apply reconcileTransactions_eq|].
  assert (Hio : internal_only (reconciled toLowerCase internalData providerData)
                = (indexOf internalData).*2).
  { simpl. f_equal. apply filter_all. intros [k t] He. simpl.
    apply Map_has_false_keys, Hdis.
    apply (list_elem_of_fmap_2 fst) in He. exact He. }
  assert (Hpo : provider_only (reconciled toLowerCase internalData providerData)
                = (indexOf providerData).*2).
  { simpl. f_equal. apply filter_all. intros [k t] He. simpl.
    apply Map_has_false_keys. intros Hk. apply (Hdis k Hk).
    apply (list_elem_of_fmap_2 fst) in He. exact He. }
  assert (Hrows : ∀ data, (indexOf data).*2
                  = omap (fun k => lastWith k (keyedRows data))
                      (first_occurrences (keyedRows data).*1)).
  { intros data. rewrite (entries_by_key _ (indexOf_NoDup data)).
    rewrite indexOf_keys. apply list_omap_ext, Forall2_same_length_lookup_2.
    - reflexivity.
    - intros i x y Hx Hy. rewrite Hx in Hy. injection Hy as <-.
      apply indexOf_get. }
  assert (Hnd : ∀ data, NoDup (keyedRows data).*1 →
                        (indexOf data).*2 = (keyedRows data).*2).
  { intros data H. unfold indexOf. rewrite setAll_fresh; [reflexivity|exact H]. }
  simpl matched. simpl mismatched.
  rewrite (joinRecords_disjoint _ _ Hdis), Hio, Hpo.
  repeat split; auto.
Qed.

End DisjointFacts.

(** ** Totality and determinism *)

Section TotalityFacts.
Variable toLowerCase : jsstring → jsstring.

Lemma joinRecords_nil_r (internalMap : JSMap) :
  joinRecords toLowerCase internalMap [] = [].
Proof. apply joinRecords_disjoint. intros k _ H. inversion H. Qed.

(** C8.  The engine returns a result on any two inputs, never an
    exception.  With an empty internal input [matched], [mismatched] and
    [internal_only] are empty and the internal counts are zero; with an
    empty provider input the same holds of [matched], [mismatched],
    [provider_only] and the provider counts. *)
Theorem reconcile_total (this : ReconciliationTool) :
  (∀ internalData providerData : list Row, ∃ results,
     reconcileTransactions toLowerCase this internalData providerData = Ok results)
  ∧ (∀ providerData : list Row, ∃ results s,
       reconcileTransactions toLowerCase this [] providerData = Ok results
       ∧ summary results = Some s
       ∧ matched results = [] ∧ mismatched results = []
       ∧ internal_only results = []
       ∧ total_internal s = 0 ∧ matched_count s = 0
       ∧ mismatched_count s = 0 ∧ internal_only_count s = 0)
  ∧ (∀ internalData : list Row, ∃ results s,
       reconcileTransactions toLowerCase this internalData [] = Ok results
       ∧ summary results = Some s
       ∧ matched results = [] ∧ mismatched results = []
       ∧ provider_only results = []
       ∧ total_provider s = 0 ∧ matched_count s = 0
       ∧ mismatched_count s = 0 ∧ provider_only_count s = 0)
  ∧ reconcileTransactions toLowerCase this [] [] =
    Ok {| matched := []; mismatched := []; internal_only := [];
          provider_only := [];
          summary :=
            Some {| total_internal := 0; total_provider := 0;
                    matched_count := 0; mismatched_count := 0;
                    internal_only_count := 0; provider_only_count := 0 |} |}.
Proof.
  split; [|split; [|split]].
  - intros internalData providerData. eexists. apply reconcileTransactions_eq.
  - intros providerData. eexists. eexists.
    split; [apply reconcileTransactions_eq|].
    split; [reflexivity|]. repeat split; reflexivity.
  - intros internalData. eexists. eexists.
    split; [apply reconcileTransactions_eq|].
    split; [reflexivity|]. simpl.
    change (indexOf []) with (@nil (jsstring * Row)).
    rewrite joinRecords_nil_r. repeat split; reflexivity.
  - reflexivity.
Qed.

(** C9.  The result depends on the two inputs alone: it is the same from
    any state of the tool object, in particular from the state a first
    call leaves behind, where the first call's results are stored; running
    the reconciliation a second time stores the same results again. *)
Theorem reconcile_deterministic (this this' : ReconciliationTool)
    (internalData providerData : list Row) :
  reconcileTransactions toLowerCase this internalData providerData
    = reconcileTransactions toLowerCase this' internalData providerData
  ∧ reconcileTransactions toLowerCase
      (processReconciliation toLowerCase this internalData providerData)
      internalData providerData
    = reconcileTransactions toLowerCase this internalData providerData
  ∧ processReconciliation toLowerCase
      (processReconciliation toLowerCase this internalData providerData)
      internalData providerData
    = processReconciliation toLowerCase this internalData providerData.
Proof.
  split; [|split].
  - rewrite !reconcileTransactions_eq. reflexivity.
  - rewrite !reconcileTransactions_eq. reflexivity.
  - unfold processReconciliation.
    destruct ((length internalData =? 0) || (length providerData =? 0));
      [reflexivity|].
    rewrite !reconcileTransactions_eq. reflexivity.
Qed.
End TotalityFacts.

(** ** Comparison of the two rows of a key *)

Lemma tolerance_value : tolerance = S754_finite false 5764607523034235 (-59).
Proof. reflexivity. Qed.

(** [5764607523034235 * 2^-59] is the binary64 value nearest to [1/100]: it
    is within half a unit in the last place of it. *)
Lemma tolerance_nearest : (Z.abs (100 * 5764607523034235 - 2 ^ 59) * 2 <= 100)%Z.
Proof. vm_compute. discriminate. Qed.



Section ComparisonFacts.
Variable toLowerCase : jsstring → jsstring.

(** C4.  For a key held by both indexes, [amount_match] of its Match Record
    is true exactly when the binary64 difference of the two parsed
    amounts, in absolute value, is strictly below the binary64 value of
    [0.01]; [status_match] is true exactly when the two [status] columns,
    each the empty string when absent, lower-cased and trimmed, are
    equal. *)
Theorem match_flags (this : ReconciliationTool)
    (internalData providerData : list Row) (internalMap providerMap : JSMap)
    (ref : jsstring) (internalTxn providerTxn : Row) :
  buildIndex internalData = Ok internalMap →
  buildIndex providerData = Ok providerMap →
  Map_get internalMap ref = Some internalTxn →
  Map_get providerMap ref = Some providerTxn →
  ∃ results d,
    reconcileTransactions toLowerCase this internalData providerData = Ok results
    ∧ d ∈ matched results ++ mismatched results
    ∧ transaction_reference d = ref
    ∧ internal d = internalTxn ∧ provider d = providerTxn
    ∧ (amount_match d = true ↔
       SFltb (SFabs (SFsub prec emax (parseFloat (js_or (get internalTxn "amount") (VNumber 0)))
                       (parseFloat (js_or (get providerTxn "amount") (VNumber 0)))))
         (S754_finite false 5764607523034235 (-59)) = true)
    ∧ (status_match d = true ↔
       trim (toLowerCase (default [] (internalTxn !! js "status")))
       = trim (toLowerCase (default [] (providerTxn !! js "status")))).
Proof.
  rewrite !buildIndex_eq. intros [= <-] [= <-] Hi Hp.
  exists (reconciled toLowerCase internalData providerData),
         (matchRecord toLowerCase ref internalTxn providerTxn).
  split; [apply reconcileTransactions_eq|].
  split; [apply joined_elem; eauto 7|].
  do 3 (split; [reflexivity|]).
  split; [reflexivity|].
  simpl. apply bool_decide_eq_true.
Qed.

End ComparisonFacts.

(** ** Extraction of the key *)

Section KeyFacts.
(** C3, as the engine has it.  The reference of a row is the trimmed value
    of the first of [transaction_reference], [reference], [id] that is
    present and not the empty string, the test being made before the
    trimming.  When that value is blank the row has no key, whatever the
    columns after it hold; in every other case the key is the first of the
    three columns that is non-empty after trimming, and there is none when
    all three are empty or absent.  A row without a key enters neither
    index and no category. *)
Theorem extracted_key (row : Row) :
  refOf row = Ok (trim (firstNonEmpty row))
  ∧ keyOf row = match firstNonEmpty row, trim (firstNonEmpty row) with
                | _ :: _, [] => None
                | _, _ => spec_extractKey row
                end
  ∧ (keyOf row = None →
     ∀ (toLowerCase : jsstring → jsstring) (this : ReconciliationTool)
       (internalData providerData : list Row),
     ∃ results internalMap providerMap,
       reconcileTransactions toLowerCase this internalData providerData = Ok results
       ∧ buildIndex internalData = Ok internalMap
       ∧ buildIndex providerData = Ok providerMap
       ∧ (∀ k, Map_get internalMap k ≠ Some row ∧ Map_get providerMap k ≠ Some row)
       ∧ (row ∉ internal_only results) ∧ (row ∉ provider_only results)
       ∧ ∀ d, d ∈ matched results ++ mismatched results →
              internal d ≠ row ∧ provider d ≠ row).
Proof.
  split; [apply refOf_eq|]. split.
  - rewrite keyOf_eq. unfold firstNonEmpty, spec_extractKey, spec_field.
    destruct (row !! js "transaction_reference") as [[|c s]|];
      destruct (row !! js "reference") as [[|c' s']|];
      destruct (row !! js "id") as [[|c'' s'']|]; simpl default;
      change (trim []) with (@nil N);
      repeat match goal with
             | |- context [trim (?c :: ?s)] => destruct (trim (c :: s))
             end; reflexivity.
  - intros Hk toLowerCase this internalData providerData.
    exists (reconciled toLowerCase internalData providerData),
           (indexOf internalData), (indexOf providerData).
    split; [apply reconcileTransactions_eq|].
    do 2 (split; [apply buildIndex_eq|]).
    split.
    + intros k. split; intros H; apply indexOf_get_Some in H as [_ H];
        congruence.
    + apply keyless_row_nowhere, Hk.
Qed.
End KeyFacts.

(** * The scenarios, evaluated *)

Example scenarioA :
  reconcileTransactions toLowerCase_basic_latin constructor
    [T1_internal] [T1_provider] =
  Ok {| matched :=
          [ {| transaction_reference := js "T1";
               internal := T1_internal; provider := T1_provider;
               amount_match := true; status_match := true;
               fully_matched := true |} ];
        mismatched := []; internal_only := []; provider_only := [];
        summary :=
          Some {| total_internal := 1; total_provider := 1;
                  matched_count := 1; mismatched_count := 0;
                  internal_only_count := 0; provider_only_count := 0 |} |}.
Proof. vm_compute. reflexivity. Qed.

Example scenarioB :
  reconcileTransactions toLowerCase_basic_latin constructor
    [T2_internal] [T2_provider] =
  Ok {| matched := [];
        mismatched :=
          [ {| transaction_reference := js "T2";
               internal := T2_internal; provider := T2_provider;
               amount_match := false; status_match := true;
               fully_matched := false |} ];
        internal_only := []; provider_only := [];
        summary :=
          Some {| total_internal := 1; total_provider := 1;
                  matched_count := 0; mismatched_count := 1;
                  internal_only_count := 0; provider_only_count := 0 |} |}.
Proof. vm_compute. reflexivity. Qed.

Example scenarioC :
  reconcileTransactions toLowerCase_basic_latin constructor [T3_internal] [] =
  Ok {| matched := []; mismatched := [];
        internal_only := [T3_internal]; provider_only := [];
        summary :=
          Some {| total_internal := 1; total_provider := 0;
                  matched_count := 0; mismatched_count := 0;
                  internal_only_count := 1; provider_only_count := 0 |} |}.
Proof. vm_compute. reflexivity. Qed.

(** Amounts one cent apart in decimal are within the tolerance in binary64:
    [10.01] is parsed to a value just below it. *)
Example one_cent_apart :
  amountsClose (parseFloat_string (js "10.01")) (parseFloat_string (js "10.00")) = true
  ∧ amountsClose (parseFloat_string (js "0.01")) (parseFloat_string (js "0")) = false.
Proof. vm_compute. auto. Qed.

(** * Instances *)

(** Scenario A: the key [T1] is held by both indexes and gets one Match
    Record, built from the two rows. *)
Lemma shared_key_one_record_scenarioA :
  (buildIndex [T1_internal] = Ok [(js "T1", T1_internal)]
   ∧ buildIndex [T1_provider] = Ok [(js "T1", T1_provider)])
  ∧ ∃ results d,
      reconcileTransactions toLowerCase_basic_latin constructor
        [T1_internal] [T1_provider] = Ok results
      ∧ filter (fun x => transaction_reference x = js "T1")
          (matched results ++ mismatched results) = [d]
      ∧ internal d = T1_internal ∧ provider d = T1_provider.
Proof.
  split; [vm_compute; auto|].
  destruct (shared_key_one_record toLowerCase_basic_latin constructor
              [T1_internal] [T1_provider]
              [(js "T1", T1_internal)] [(js "T1", T1_provider)]
              (js "T1") T1_internal T1_provider)
    as (results & d & H1 & H2 & _ & H3 & H4 & _);
    [vm_compute; reflexivity ..|].
  exists results, d. auto.
Defined.

(** Scenario B: the key [T2] is held by both indexes and its Match Record is
    in the result. *)
Lemma match_flags_scenarioB :
  (buildIndex [T2_internal] = Ok [(js "T2", T2_internal)]
   ∧ buildIndex [T2_provider] = Ok [(js "T2", T2_provider)])
  ∧ ∃ results d,
      reconcileTransactions toLowerCase_basic_latin constructor
        [T2_internal] [T2_provider] = Ok results
      ∧ d ∈ matched results ++ mismatched results
      ∧ transaction_reference d = js "T2".
Proof.
  split; [vm_compute; auto|].
  destruct (match_flags toLowerCase_basic_latin constructor
              [T2_internal] [T2_provider]
              [(js "T2", T2_internal)] [(js "T2", T2_provider)]
              (js "T2") T2_internal T2_provider)
    as (results & d & H1 & H2 & H3 & _);
    [vm_compute; reflexivity ..|].
  exists results, d. auto.
Defined.


(** Scenario C: the key sets are disjoint, and the internal row is the whole
    of [internal_only]. *)
Lemma disjoint_keys_only_scenarioC :
  (buildIndex [T3_internal] = Ok [(js "T3", T3_internal)]
   ∧ buildIndex [] = Ok [])
  ∧ ∃ results,
      reconcileTransactions toLowerCase_basic_latin constructor
        [T3_internal] [] = Ok results
      ∧ matched results = [] ∧ mismatched results = []
      ∧ internal_only results = [T3_internal] ∧ provider_only results = [].
Proof.
  split; [vm_compute; auto|].
  destruct (disjoint_keys_only toLowerCase_basic_latin constructor
              [T3_internal] [] [(js "T3", T3_internal)] [])
    as (results & H1 & H2 & H3 & H4 & H5 & _);
    [vm_compute; reflexivity | vm_compute; reflexivity | |].
  - intros k _ H. inversion H.
  - exists results. repeat split; auto.
Defined.

(** * Where the engine departs from the specification *)


(** C3 fails for a blank [transaction_reference] in front of an [id]: the
    column is not passed over, the row gets no key and is dropped, where the
    first column that is non-empty after trimming is [id], with [T7]. *)
Lemma blank_reference_not_passed_over :
  spec_extractKey T7_blank_reference = Some (js "T7")
  ∧ refOf T7_blank_reference = Ok []
  ∧ keyOf T7_blank_reference = None
  ∧ buildIndex [T7_blank_reference] = Ok []
  ∧ reconcileTransactions toLowerCase_basic_latin constructor
      [T7_blank_reference] [] =
    Ok {| matched := []; mismatched := []; internal_only := [];
          provider_only := [];
          summary :=
            Some {| total_internal := 1; total_provider := 0;
                    matched_count := 0; mismatched_count := 0;
                    internal_only_count := 0; provider_only_count := 0 |} |}.
Proof. vm_compute. repeat split. Qed.

(** C6 fails when a side repeats a key: the key sets are disjoint, the first
    row with key [T4] produced a key, and it is not in [internal_only]. *)
Lemma duplicate_row_not_in_internal_only :
  buildIndex scenarioD_internal = Ok [(js "T4", T4_amount2)]
  ∧ buildIndex [] = Ok []
  ∧ T4_amount1 ∈ scenarioD_internal
  ∧ keyOf T4_amount1 = Some (js "T4")
  ∧ ∃ results,
      reconcileTransactions toLowerCase_basic_latin constructor
        scenarioD_internal [] = Ok results
      ∧ matched results = [] ∧ mismatched results = []
      ∧ internal_only results = [T4_amount2]
      ∧ T4_amount1 ∉ internal_only results.
Proof.
  split; [vm_compute; reflexivity|].
  split; [reflexivity|].
  split; [apply list_elem_of_here|].
  split; [vm_compute; reflexivity|].
  eexists. split; [apply reconcileTransactions_eq|].
  split; [vm_compute; reflexivity|].
  split; [vm_compute; reflexivity|].
  assert (E : internal_only (reconciled toLowerCase_basic_latin scenarioD_internal [])
              = [T4_amount2]) by (vm_compute; reflexivity).
  split; [exact E|]. rewrite E. intros H.
  apply list_elem_of_singleton in H.
  apply (f_equal (fun m : Row => m !! js "amount")) in H.
  vm_compute in H. discriminate.
Qed.

(** * Further properties of the engine *)

(** ** The amount comparison *)

Lemma binary_round_aux_abs p e sx mx ex lx :
  SFabs (binary_round_aux p e sx mx ex lx)
  = SFabs (binary_round_aux p e false mx ex lx).
Proof.
  unfold binary_round_aux.
  destruct (shr_fexp p e mx ex lx) as [mrs' e'].
  destruct (shr_fexp p e _ e' loc_Exact) as [mrs'' e''].
  destruct (shr_m mrs''); [reflexivity| |reflexivity].
  destruct (Z.leb e'' (Z.sub e p)); reflexivity.
Qed.

Lemma binary_round_abs p e sx mx ex :
  SFabs (binary_round p e sx mx ex) = SFabs (binary_round p e false mx ex).
Proof.
  unfold binary_round. destruct (shl_align _ _ _) as [mz ez].
  apply binary_round_aux_abs.
Qed.

Lemma binary_normalize_opp_abs p e m ex sz :
  SFabs (binary_normalize p e (- m) ex sz) = SFabs (binary_normalize p e m ex sz).
Proof.
  destruct m as [|m|m]; simpl; [reflexivity| |].
  - apply binary_round_abs.
  - symmetry. apply binary_round_abs.
Qed.

Lemma SFsub_swap_abs p e x y : SFabs (SFsub p e x y) = SFabs (SFsub p e y x).
Proof.
  destruct x as [sx|sx| |sx mx ex], y as [sy|sy| |sy my ey];
    try reflexivity; try (destruct sx, sy; reflexivity).
  unfold SFsub. rewrite (Z.min_comm ey ex).
  rewrite <- binary_normalize_opp_abs. f_equal. f_equal. lia.
Qed.

Lemma SFsub_diag_abs p e x :
  SFabs (SFsub p e x x) = if isFiniteNumber x then S754_zero false else S754_nan.
Proof.
  destruct x as [s|s| |s m ex]; try reflexivity; try (destruct s; reflexivity).
  unfold SFsub. rewrite Z.sub_diag. reflexivity.
Qed.

Lemma amountsClose_comm a b : amountsClose a b = amountsClose b a.
Proof. unfold amountsClose. rewrite SFsub_swap_abs. reflexivity. Qed.

Lemma amountsClose_diag a : amountsClose a a = isFiniteNumber a.
Proof.
  unfold amountsClose. rewrite SFsub_diag_abs.
  destruct (isFiniteNumber a); reflexivity.
Qed.

(** ** White space around keys *)

Lemma trimStart_idem s : trimStart (trimStart s) = trimStart s.
Proof.
  induction s as [|c s IH]; [reflexivity|]. simpl.
  destruct (isWhiteSpace c) eqn:E; [exact IH|]. simpl. rewrite E. reflexivity.
Qed.

Lemma trimStart_snoc l c :
  isWhiteSpace c = false → ∃ l', trimStart (l ++ [c]) = l' ++ [c].
Proof.
  intros Hc. induction l as [|x l IH]; simpl.
  - rewrite Hc. exists []. reflexivity.
  - destruct (isWhiteSpace x); [exact IH|]. exists (x :: l). reflexivity.
Qed.

Lemma trimEnd_keeps_start t : trimStart t = t → trimStart (trimEnd t) = trimEnd t.
Proof.
  destruct t as [|c t]; [reflexivity|]. simpl.
  destruct (isWhiteSpace c) eqn:E.
  - intros H. exfalso.
    assert (Hlen : ∀ s, length (trimStart s) ≤ length s).
    { clear. induction s as [|x s IH]; simpl; [lia|].
      destruct (isWhiteSpace x); simpl; lia. }
    pose proof (Hlen t) as H'. rewrite H in H'. simpl in H'. lia.
  - intros _. unfold trimEnd. simpl rev.
    destruct (trimStart_snoc (rev t) c E) as [l' ->].
    rewrite rev_app_distr. simpl. rewrite E. reflexivity.
Qed.

Lemma trimEnd_idem t : trimEnd (trimEnd t) = trimEnd t.
Proof.
  unfold trimEnd. rewrite rev_involutive, trimStart_idem. reflexivity.
Qed.

Lemma trim_idem s : trim (trim s) = trim s.
Proof.
  unfold trim.
  rewrite (trimEnd_keeps_start (trimStart s) (trimStart_idem s)).
  apply trimEnd_idem.
Qed.

Lemma keyOf_trimmed (row : Row) (k : jsstring) :
  keyOf row = Some k → k ≠ [] ∧ trim k = k.
Proof.
  rewrite keyOf_eq. destruct (trim (firstNonEmpty row)) eqn:E; [discriminate|].
  intros [= <-]. split; [discriminate|]. rewrite <- E. apply trim_idem.
Qed.

(** ** Exchanging the two sides *)

Section SwapFacts.
Variable toLowerCase : jsstring → jsstring.

Lemma matchRecord_mirror (k : jsstring) (a b : Row) :
  matchRecord toLowerCase k b a = mirror (matchRecord toLowerCase k a b).
Proof.
  unfold matchRecord, mirror. simpl.
  rewrite (amountsClose_comm (amountOf b)).
  assert (E : bool_decide (statusText toLowerCase b = statusText toLowerCase a)
              = bool_decide (statusText toLowerCase a = statusText toLowerCase b)).
  { apply bool_decide_ext. split; congruence. }
  rewrite E. reflexivity.
Qed.

Lemma joined_filter_elem (m m' : JSMap) (b : bool) (d : MatchData) :
  NoDup (Map_keys m) →
  d ∈ filter (fun x => fully_matched x = b) (joinRecords toLowerCase m m') ↔
  fully_matched d = b
  ∧ ∃ (k : jsstring) (t t' : Row),
      Map_get m k = Some t ∧ Map_get m' k = Some t'
      ∧ d = matchRecord toLowerCase k t t'.
Proof.
  intros Hnd. rewrite list_elem_of_filter, joinRecords_elem. split.
  - intros (F & k & t & t' & He & Hg & ->). split; [exact F|].
    exists k, t, t'. split; [apply Map_elem_get; assumption | auto].
  - intros (F & k & t & t' & Hi & Hg & ->). split; [exact F|].
    exists k, t, t'. split; [apply Map_get_elem, Hi | auto].
Qed.

Lemma joined_filter_NoDup (m m' : JSMap) (b : bool) :
  NoDup (Map_keys m) →
  NoDup (transaction_reference <$>
           filter (fun x => fully_matched x = b) (joinRecords toLowerCase m m')).
Proof.
  intros Hnd.
  pose proof (joinRecords_NoDup toLowerCase m m' Hnd) as H.
  eapply sublist_NoDup; [exact H|]. apply fmap_sublist, sublist_filter.
Qed.

Lemma joined_filter_swap (m m' : JSMap) (b : bool) :
  NoDup (Map_keys m) → NoDup (Map_keys m') →
  filter (fun x => fully_matched x = b) (joinRecords toLowerCase m' m)
  ≡ₚ mirror <$> filter (fun x => fully_matched x = b) (joinRecords toLowerCase m m').
Proof.
  intros Hm Hm'. apply NoDup_Permutation.
  - eapply NoDup_fmap_1, joined_filter_NoDup, Hm'.
  - apply (NoDup_fmap_1 transaction_reference).
    rewrite <- list_fmap_compose.
    exact (joined_filter_NoDup m m' b Hm).
  - intros d. rewrite list_elem_of_fmap, (joined_filter_elem m' m b d Hm'). split.
    + intros (F & k & t & t' & H1 & H2 & ->).
      exists (matchRecord toLowerCase k t' t).
      split; [apply matchRecord_mirror|].
      apply joined_filter_elem; [exact Hm|].
      split; [rewrite matchRecord_mirror in F; exact F | eauto 7].
    + intros (d0 & -> & H0). apply joined_filter_elem in H0; [|exact Hm].
      destruct H0 as (F & k & t & t' & H1 & H2 & ->).
      split; [exact F|]. exists k, t', t.
      split; [exact H2|]. split; [exact H1|].
      symmetry. apply matchRecord_mirror.
Qed.

(** X1.  Exchanging the two inputs exchanges [internal_only] with
    [provider_only], list for list, and gives the same Match Records with
    their two rows exchanged, in [matched] and in [mismatched], up to the
    order of the records; so the four counts of the summary are those of the
    original call with the two "only" counts exchanged. *)
Theorem swap_sides (this : ReconciliationTool)
    (internalData providerData : list Row) :
  ∃ r r',
    reconcileTransactions toLowerCase this internalData providerData = Ok r
    ∧ reconcileTransactions toLowerCase this providerData internalData = Ok r'
    ∧ internal_only r' = provider_only r
    ∧ provider_only r' = internal_only r
    ∧ matched r' ≡ₚ mirror <$> matched r
    ∧ mismatched r' ≡ₚ mirror <$> mismatched r
    ∧ length (matched r') = length (matched r)
    ∧ length (mismatched r') = length (mismatched r).
Proof.
  exists (reconciled toLowerCase internalData providerData),
         (reconciled toLowerCase providerData internalData).
  split; [apply reconcileTransactions_eq|].
  split; [apply reconcileTransactions_eq|].
  split; [reflexivity|]. split; [reflexivity|].
  pose proof (joined_filter_swap (indexOf internalData) (indexOf providerData)
                true (indexOf_NoDup _) (indexOf_NoDup _)) as Ht.
  pose proof (joined_filter_swap (indexOf internalData) (indexOf providerData)
                false (indexOf_NoDup _) (indexOf_NoDup _)) as Hf.
  split; [exact Ht|]. split; [exact Hf|]. simpl. split.
  - rewrite Ht. apply length_fmap.
  - rewrite Hf. apply length_fmap.
Qed.

(** ** A dataset against itself *)

(** X2.  Reconciling a dataset with itself leaves [internal_only] and
    [provider_only] empty and gives one Match Record for each key of the
    index, with the same row on both sides and [status_match] true; the
    record is in [matched] exactly when the amount of the row is a finite
    number, so a row whose amount parses to [NaN] or to an infinity does not
    match itself. *)
Theorem self_reconciliation (this : ReconciliationTool) (data : list Row) :
  ∃ r,
    reconcileTransactions toLowerCase this data data = Ok r
    ∧ internal_only r = [] ∧ provider_only r = []
    ∧ transaction_reference <$> (matched r ++ mismatched r)
      ≡ₚ first_occurrences (keyedRows data).*1
    ∧ ∀ d, d ∈ matched r ++ mismatched r →
        provider d = internal d
        ∧ status_match d = true
        ∧ amount_match d = isFiniteNumber (amountOf (internal d))
        ∧ (d ∈ matched r ↔ isFiniteNumber (amountOf (internal d)) = true).
Proof.
  exists (reconciled toLowerCase data data).
  split; [apply reconcileTransactions_eq|].
  assert (Hall : ∀ e : jsstring * Row,
            e ∈ indexOf data → ¬ Map_has (indexOf data) e.1 = false).
  { intros [k t] He Hh. apply Map_has_false_keys in Hh. apply Hh.
    apply (list_elem_of_fmap_2 fst) in He. exact He. }
  split; [|split; [|split]].
  - simpl. rewrite filter_none; [reflexivity | exact Hall].
  - simpl. rewrite filter_none; [reflexivity | exact Hall].
  - simpl. rewrite joinRecords_split, joinRecords_keys, <- indexOf_keys.
    rewrite filter_all; [reflexivity|].
    intros k Hk. apply Map_has_keys, Hk.
  - intros d Hd. pose proof Hd as Hd'.
    apply joined_elem in Hd as (k & t & t' & H1 & H2 & ->).
    assert (t' = t) as -> by congruence.
    assert (Hs : status_match (matchRecord toLowerCase k t t) = true)
      by (apply bool_decide_eq_true_2; reflexivity).
    assert (Ha : amount_match (matchRecord toLowerCase k t t)
                 = isFiniteNumber (amountOf t)) by apply amountsClose_diag.
    split; [reflexivity|]. split; [exact Hs|]. split; [exact Ha|].
    simpl matched. rewrite list_elem_of_filter.
    change (fully_matched (matchRecord toLowerCase k t t))
      with (amount_match (matchRecord toLowerCase k t t)
            && status_match (matchRecord toLowerCase k t t)).
    rewrite Hs, Ha, andb_true_r. simpl internal. split; [tauto|].
    intros F. split; [exact F|].
    apply joinRecords_elem. exists k, t, t.
    split; [apply Map_get_elem, H1 | auto].
Qed.

(** ** Keys and rows of the result *)

(** X3.  Every key the engine works with is in normal form: the key of an
    index entry, the [transaction_reference] of a Match Record and the
    reference of a row of [internal_only] or [provider_only] are non-empty
    and carry no white space at either end. *)
Theorem keys_are_trimmed (this : ReconciliationTool)
    (internalData providerData : list Row) :
  ∃ r internalMap providerMap,
    reconcileTransactions toLowerCase this internalData providerData = Ok r
    ∧ buildIndex internalData = Ok internalMap
    ∧ buildIndex providerData = Ok providerMap
    ∧ (∀ k, k ∈ Map_keys internalMap ++ Map_keys providerMap →
         k ≠ [] ∧ trim k = k)
    ∧ (∀ d, d ∈ matched r ++ mismatched r →
         transaction_reference d ≠ [] ∧
         trim (transaction_reference d) = transaction_reference d)
    ∧ (∀ txn : Row, txn ∈ internal_only r ++ provider_only r →
         ∃ k, refOf txn = Ok k ∧ k ≠ [] ∧ trim k = k).
Proof.
  exists (reconciled toLowerCase internalData providerData),
         (indexOf internalData), (indexOf providerData).
  split; [apply reconcileTransactions_eq|].
  do 2 (split; [apply buildIndex_eq|]).
  assert (Hkey : ∀ data k, k ∈ Map_keys (indexOf data) → k ≠ [] ∧ trim k = k).
  { intros data k Hk. apply list_elem_of_fmap in Hk as ([k' t] & -> & He).
    apply indexOf_elem in He as [_ He]. exact (keyOf_trimmed _ _ He). }
  split; [|split].
  - intros k Hk. apply elem_of_app in Hk as [Hk|Hk]; eapply Hkey, Hk.
  - intros d Hd. apply joined_elem in Hd as (k & t & t' & H1 & _ & ->).
    apply indexOf_get_Some in H1 as [_ H1]. exact (keyOf_trimmed _ _ H1).
  - intros txn Ht. apply elem_of_app in Ht as [Ht|Ht].
    + apply internal_only_elem in Ht as (k & Hg & _).
      apply indexOf_get_Some in Hg as [_ Hg]. exists k.
      split; [apply keyOf_Some_refOf, Hg | exact (keyOf_trimmed _ _ Hg)].
    + apply provider_only_elem in Ht as (k & Hg & _).
      apply indexOf_get_Some in Hg as [_ Hg]. exists k.
      split; [apply keyOf_Some_refOf, Hg | exact (keyOf_trimmed _ _ Hg)].
Qed.

(** X4.  The engine makes up no row and mixes no sides: the rows of
    [internal_only] and the [internal] row of every Match Record are rows of
    the internal input, the rows of [provider_only] and the [provider] row
    of every Match Record are rows of the provider input, and the two rows
    of a Match Record both have the reference the record is filed under. *)
Theorem rows_come_from_inputs (this : ReconciliationTool)
    (internalData providerData : list Row) :
  ∃ r,
    reconcileTransactions toLowerCase this internalData providerData = Ok r
    ∧ (∀ txn : Row, txn ∈ internal_only r → txn ∈ internalData)
    ∧ (∀ txn : Row, txn ∈ provider_only r → txn ∈ providerData)
    ∧ (∀ d, d ∈ matched r ++ mismatched r →
         internal d ∈ internalData ∧ provider d ∈ providerData
         ∧ refOf (internal d) = Ok (transaction_reference d)
         ∧ refOf (provider d) = Ok (transaction_reference d)).
Proof.
  exists (reconciled toLowerCase internalData providerData).
  split; [apply reconcileTransactions_eq|].
  split; [|split].
  - intros txn Ht. apply internal_only_elem in Ht as (k & Hg & _).
    apply indexOf_get_Some in Hg as [Hg _]. exact Hg.
  - intros txn Ht. apply provider_only_elem in Ht as (k & Hg & _).
    apply indexOf_get_Some in Hg as [Hg _]. exact Hg.
  - intros d Hd. apply joined_elem in Hd as (k & t & t' & H1 & H2 & ->).
    apply indexOf_get_Some in H1 as [H1 K1].
    apply indexOf_get_Some in H2 as [H2 K2].
    simpl. auto using keyOf_Some_refOf.
Qed.
End SwapFacts.

(** ** Cleaning the inputs beforehand *)

Lemma keyedRows_entries (es : JSMap) :
  (∀ k (txn : Row), (k, txn) ∈ es → keyOf txn = Some k) →
  keyedRows es.*2 = es.
Proof.
  induction es as [|[k txn] es IH]; intros H; [reflexivity|].
  rewrite fmap_cons. unfold keyedRows in *. simpl.
  rewrite (H k txn) by apply list_elem_of_here. simpl. f_equal.
  apply IH. intros k' txn' H'. apply H, list_elem_of_further, H'.
Qed.

Lemma indexOf_of_index (data : list Row) :
  indexOf (indexOf data).*2 = indexOf data.
Proof.
  unfold indexOf at 1. rewrite keyedRows_entries by apply indexOf_elem.
  rewrite setAll_fresh; [reflexivity|]. exact (indexOf_NoDup data).
Qed.

Lemma keyedRows_filter_keyed (data : list Row) :
  keyedRows (filter (fun row => is_Some (keyOf row)) data) = keyedRows data.
Proof.
  induction data as [|row data IH]; [reflexivity|].
  destruct (keyOf row) as [k|] eqn:E.
  - rewrite filter_cons_True by (rewrite E; eauto).
    unfold keyedRows in *. simpl. rewrite E. simpl. f_equal. exact IH.
  - rewrite filter_cons_False by (rewrite E; intros [x Hx]; discriminate).
    unfold keyedRows in *. simpl. rewrite E. simpl. exact IH.
Qed.

Section CleaningFacts.
Variable toLowerCase : jsstring → jsstring.

(** X5.  The four categories depend on the inputs through the two indexes
    alone.  Running the engine on the rows the indexes keep (one row per
    key, the last one), or on the inputs without the rows that have no key,
    gives the same [matched], [mismatched], [internal_only] and
    [provider_only] as running it on the raw inputs; only the two totals of
    the summary can differ. *)
Theorem cleaned_inputs_same_categories (this : ReconciliationTool)
    (internalData providerData : list Row) :
  ∃ r internalMap providerMap r1 r2,
    reconcileTransactions toLowerCase this internalData providerData = Ok r
    ∧ buildIndex internalData = Ok internalMap
    ∧ buildIndex providerData = Ok providerMap
    ∧ reconcileTransactions toLowerCase this internalMap.*2 providerMap.*2 = Ok r1
    ∧ reconcileTransactions toLowerCase this
        (filter (fun row => is_Some (keyOf row)) internalData)
        (filter (fun row => is_Some (keyOf row)) providerData) = Ok r2
    ∧ (matched r1 = matched r ∧ mismatched r1 = mismatched r
       ∧ internal_only r1 = internal_only r ∧ provider_only r1 = provider_only r)
    ∧ (matched r2 = matched r ∧ mismatched r2 = mismatched r
       ∧ internal_only r2 = internal_only r ∧ provider_only r2 = provider_only r).
Proof.
  exists (reconciled toLowerCase internalData providerData),
         (indexOf internalData), (indexOf providerData).
  eexists. eexists.
  split; [apply reconcileTransactions_eq|].
  do 2 (split; [apply buildIndex_eq|]).
  split; [apply reconcileTransactions_eq|].
  split; [apply reconcileTransactions_eq|].
  split.
  - unfold reconciled. simpl. rewrite !indexOf_of_index. auto.
  - unfold reconciled. simpl. unfold indexOf.
    rewrite !keyedRows_filter_keyed. auto.
Qed.

(** ** The stored results *)

(** X6.  Whatever runs the tool object has been through, the results it
    holds, if any, are the engine's results on two non-empty inputs: both
    totals of its summary are at least one, and the four counts are the
    lengths of the four lists. *)
Theorem stored_results_invariant (this : ReconciliationTool) (r : Results) :
  reachable toLowerCase this →
  currentResults this = Some r →
  ∃ (internalData providerData : list Row) (s : Summary),
    reconcileTransactions toLowerCase this internalData providerData = Ok r
    ∧ summary r = Some s
    ∧ total_internal s = length internalData ∧ 1 ≤ total_internal s
    ∧ total_provider s = length providerData ∧ 1 ≤ total_provider s
    ∧ matched_count s = length (matched r)
    ∧ mismatched_count s = length (mismatched r)
    ∧ internal_only_count s = length (internal_only r)
    ∧ provider_only_count s = length (provider_only r).
Proof.
  intros Hreach. revert r.
  induction Hreach as [|this0 internalData providerData Hreach IH]; intros r.
  - discriminate.
  - unfold processReconciliation.
    destruct (length internalData) as [|n] eqn:Ei;
      [simpl; intros H; destruct (IH r H) as (i & p & s & H1 & H2);
       exists i, p, s; rewrite reconcileTransactions_eq in *; auto|].
    destruct (length providerData) as [|n'] eqn:Ep;
      [simpl; intros H; destruct (IH r H) as (i & p & s & H1 & H2);
       exists i, p, s; rewrite reconcileTransactions_eq in *; auto|].
    simpl. rewrite reconcileTransactions_eq. intros [= <-].
    exists internalData, providerData. eexists.
    split; [apply reconcileTransactions_eq|].
    split; [reflexivity|]. simpl. rewrite Ei, Ep.
    repeat split; lia.
Qed.
End CleaningFacts.

(** A first run on Scenario A leaves such a state. *)
Lemma stored_results_after_scenarioA :
  ∃ r (internalData providerData : list Row) (s : Summary),
    currentResults
      (processReconciliation toLowerCase_basic_latin constructor
         [T1_internal] [T1_provider]) = Some r
    ∧ summary r = Some s
    ∧ 1 ≤ total_internal s ∧ 1 ≤ total_provider s.
Proof.
  destruct (stored_results_invariant toLowerCase_basic_latin
              (processReconciliation toLowerCase_basic_latin constructor
                 [T1_internal] [T1_provider])
              (reconciled toLowerCase_basic_latin [T1_internal] [T1_provider]))
    as (i & p & s & _ & H2 & _ & H3 & _ & H4 & _).
  - apply reachable_run, reachable_new.
  - vm_compute. reflexivity.
  - eexists. exists i, p, s. split; [vm_compute; reflexivity|]. auto.
Defined.

(** * Reading a file *)

(** ** Splitting and cleaning *)

Lemma String_split_cons sep c s :
  String_split sep (c :: s) =
  if N.eqb c sep then [] :: String_split sep s
  else match String_split sep s with
       | piece :: rest => (c :: piece) :: rest
       | [] => [[c]]
       end.
Proof. reflexivity. Qed.

Lemma String_split_not_nil sep s : String_split sep s ≠ [].
Proof.
  induction s as [|c s IH]; [discriminate|]. rewrite String_split_cons.
  destruct (N.eqb c sep); [discriminate|].
  destruct (String_split sep s); discriminate.
Qed.

Lemma String_split_pieces sep s piece :
  piece ∈ String_split sep s → (sep ∉ piece) ∧ ∀ c, c ∈ piece → c ∈ s.
Proof.
  revert piece. induction s as [|c s IH]; intros piece.
  - simpl. rewrite list_elem_of_singleton. intros ->.
    split; [apply not_elem_of_nil | auto].
  - rewrite String_split_cons. destruct (N.eqb c sep) eqn:E.
    + rewrite elem_of_cons. intros [->|H].
      * split; [apply not_elem_of_nil | intros x Hx; inversion Hx].
      * destruct (IH _ H) as [H1 H2]. split; [exact H1|].
        intros x Hx. apply list_elem_of_further, H2, Hx.
    + apply N.eqb_neq in E.
      destruct (String_split sep s) as [|p rest] eqn:Es.
      { rewrite list_elem_of_singleton. intros ->. split.
        - rewrite list_elem_of_singleton. congruence.
        - intros x Hx. apply list_elem_of_singleton in Hx as ->.
          apply list_elem_of_here. }
      rewrite elem_of_cons. intros [->|H].
      * destruct (IH p (list_elem_of_here _ _)) as [H1 H2]. split.
        -- rewrite not_elem_of_cons. split; [congruence | exact H1].
        -- intros x Hx. apply elem_of_cons in Hx as [->|Hx];
             [apply list_elem_of_here | apply list_elem_of_further, H2, Hx].
      * destruct (IH piece (list_elem_of_further _ _ _ H)) as [H1 H2].
        split; [exact H1|]. intros x Hx. apply list_elem_of_further, H2, Hx.
Qed.

Lemma trimStart_elem s c : c ∈ trimStart s → c ∈ s.
Proof.
  induction s as [|x s IH]; simpl; [auto|].
  destruct (isWhiteSpace x); [|auto].
  intros H. apply list_elem_of_further, IH, H.
Qed.

Lemma elem_of_rev {A} (l : list A) (x : A) : x ∈ rev l ↔ x ∈ l.
Proof. rewrite !list_elem_of_In. symmetry. apply in_rev. Qed.

Lemma trim_elem s c : c ∈ trim s → c ∈ s.
Proof.
  unfold trim, trimEnd. rewrite elem_of_rev. intros H.
  apply trimStart_elem in H. rewrite elem_of_rev in H.
  apply trimStart_elem, H.
Qed.

Lemma cleanField_elem v c : c ∈ cleanField v → c ∈ v ∧ c ≠ 34%N.
Proof.
  unfold cleanField. rewrite list_elem_of_filter. intros [H1 H2].
  split; [apply trim_elem, H2 | exact H1].
Qed.

Lemma cleanField_quote_free v : 34%N ∉ v → cleanField v = trim v.
Proof.
  intros H. unfold cleanField. apply filter_all.
  intros c Hc ->. apply H, trim_elem, Hc.
Qed.

(** ** Filling a row *)

Lemma setColumn_lookup (row : Row) (header value name : jsstring) :
  setColumn row header value !! name =
  if decide (name = js "__proto__") then row !! name
  else if decide (name = header) then Some value else row !! name.
Proof.
  unfold setColumn. destruct (decide (header = js "__proto__")) as [->|Hp].
  - destruct (decide (name = js "__proto__")) as [->|Hn]; [reflexivity|].
    destruct (decide (name = js "__proto__")); [contradiction | reflexivity].
  - destruct (decide (name = js "__proto__")) as [->|Hn].
    + apply lookup_insert_ne. exact Hp.
    + destruct (decide (name = header)) as [->|Hne].
      * apply lookup_insert_eq.
      * apply lookup_insert_ne. congruence.
Qed.

Lemma foldl_setColumn_lookup (hvs : list (jsstring * jsstring)) (row : Row)
    (name : jsstring) :
  foldl (fun row hv => setColumn row hv.1 hv.2) row hvs !! name =
  if decide (name = js "__proto__") then row !! name
  else match last (filter (fun hv => hv.1 = name) hvs) with
       | Some hv => Some hv.2
       | None => row !! name
       end.
Proof.
  revert row. induction hvs as [|[h v] hvs IH]; intros row.
  - simpl. destruct (decide _); reflexivity.
  - simpl foldl. rewrite IH, setColumn_lookup. simpl.
    destruct (decide (name = js "__proto__")); [reflexivity|].
    destruct (decide (name = h)) as [->|Hne].
    + rewrite filter_cons_True by reflexivity. rewrite last_cons.
      destruct (last (filter (fun hv => hv.1 = h) hvs)); reflexivity.
    + rewrite filter_cons_False by (simpl; congruence). reflexivity.
Qed.

Lemma fillRow_lookup (headers values : list jsstring) (name : jsstring) :
  fillRow headers values !! name =
  if decide (name = js "__proto__") then None
  else snd <$> last (filter (fun hv => hv.1 = name) (zip headers values)).
Proof.
  unfold fillRow. rewrite foldl_setColumn_lookup, lookup_empty.
  destruct (decide _); [reflexivity|]. destruct (last _); reflexivity.
Qed.

Lemma fillRow_lookup_Some (headers values : list jsstring) (name v : jsstring) :
  fillRow headers values !! name = Some v →
  name ∈ headers ∧ v ∈ values ∧ name ≠ js "__proto__".
Proof.
  rewrite fillRow_lookup. destruct (decide _) as [|Hn]; [discriminate|].
  destruct (last _) as [[h x]|] eqn:E; [|discriminate].
  simpl. intros [= <-]. apply last_Some_elem_of in E.
  apply list_elem_of_filter in E as [Eh E]. simpl in Eh. subst h.
  split; [eapply elem_of_zip_l, E|]. split; [eapply elem_of_zip_r, E | exact Hn].
Qed.

Lemma nonBlankLines_elem text line :
  line ∈ nonBlankLines text → line ∈ String_split 10 text ∧ trim line ≠ [].
Proof.
  unfold nonBlankLines. rewrite list_elem_of_filter. intros [H1 H2].
  split; [exact H2|]. destruct (trim line); [discriminate | discriminate].
Qed.

Lemma parseCSV_rows (text : jsstring) (data : list Row) (row : Row) :
  parseCSV (Some text) = Resolved data → row ∈ data →
  2 ≤ length (nonBlankLines text)
  ∧ ∃ line,
      line ∈ tail (nonBlankLines text)
      ∧ length (String_split 44 line)
        = length (String_split 44 (default [] (head (nonBlankLines text))))
      ∧ row = fillRow (csvHeaders (nonBlankLines text))
                (cleanField <$> String_split 44 line).
Proof.
  unfold parseCSV. destruct (length (nonBlankLines text) <? 2) eqn:E;
    [discriminate|].
  apply Nat.ltb_ge in E. intros [= <-] Hrow. split; [exact E|].
  apply list_elem_of_omap in Hrow as (line & Hl & Hp). exists line.
  split; [exact Hl|]. unfold parseLine in Hp.
  destruct (length (cleanField <$> String_split 44 line)
            =? length (csvHeaders (nonBlankLines text))) eqn:El; [|discriminate].
  apply Nat.eqb_eq in El. unfold csvHeaders in El.
  rewrite !length_fmap in El. split; [exact El|]. congruence.
Qed.

(** ** What [parseCSV] returns *)

Lemma omap_parseLine_length (headers : list jsstring) (lines : list jsstring) :
  length (omap (parseLine headers) lines) =
  length (filter (fun line => length (String_split 44 line) = length headers) lines).
Proof.
  induction lines as [|line lines IH]; [reflexivity|].
  simpl omap. unfold parseLine at 1. rewrite length_fmap.
  destruct (length (String_split 44 line) =? length headers) eqn:E.
  - apply Nat.eqb_eq in E. rewrite filter_cons_True by exact E.
    simpl. f_equal. exact IH.
  - apply Nat.eqb_neq in E. rewrite filter_cons_False by exact E. exact IH.
Qed.

(** X7.  A text with fewer than two lines that are not blank is rejected
    with the message of the source; any other text is resolved, with one row
    for each non-blank line after the first that has as many comma-separated
    fields as the first line, the other lines being dropped without
    notice. *)
Theorem parseCSV_outcome (text : jsstring) :
  (length (nonBlankLines text) < 2 →
   parseCSV (Some text)
   = Rejected (js "CSV file must have at least a header and one data row"))
  ∧ (2 ≤ length (nonBlankLines text) →
     ∃ data,
       parseCSV (Some text) = Resolved data
       ∧ length data =
           length (filter (fun line =>
                             length (String_split 44 line)
                             = length (String_split 44
                                         (default [] (head (nonBlankLines text)))))
                     (tail (nonBlankLines text)))
       ∧ length data ≤ length (nonBlankLines text) - 1).
Proof.
  unfold parseCSV. split.
  - intros H. apply Nat.ltb_lt in H. rewrite H. reflexivity.
  - intros H. pose proof H as H'. apply Nat.ltb_ge in H'. rewrite H'.
    eexists. split; [reflexivity|].
    rewrite omap_parseLine_length. unfold csvHeaders. rewrite length_fmap.
    split; [reflexivity|].
    etransitivity; [apply length_filter|].
    destruct (nonBlankLines text); simpl; lia.
Qed.



Lemma cleaned_piece_chars (text line piece : jsstring) (c : N) :
  line ∈ nonBlankLines text → piece ∈ String_split 44 line →
  c ∈ cleanField piece →
  c ≠ 44%N ∧ c ≠ 34%N ∧ c ≠ 10%N ∧ c ∈ text.
Proof.
  intros Hl Hp Hc.
  apply nonBlankLines_elem in Hl as [Hl _].
  apply String_split_pieces in Hl as [Hl1 Hl2].
  apply String_split_pieces in Hp as [Hp1 Hp2].
  apply cleanField_elem in Hc as [Hc1 Hc2].
  split; [congruence|]. split; [exact Hc2|].
  split; [|auto]. intros ->. apply Hl1. auto.
Qed.

Lemma head_nonBlankLines text :
  2 ≤ length (nonBlankLines text) →
  default [] (head (nonBlankLines text)) ∈ nonBlankLines text.
Proof.
  destruct (nonBlankLines text) as [|l ls]; simpl; [lia|].
  intros _. apply list_elem_of_here.
Qed.

Lemma tail_elem {A} (l : list A) (x : A) : x ∈ tail l → x ∈ l.
Proof. destruct l; simpl; [auto | apply list_elem_of_further]. Qed.

(** X9.  No column name and no value of a row returned by [parseCSV] holds a
    comma, a double quote or a line feed; every code unit of a name or a
    value is a code unit of the text. *)
Theorem parseCSV_no_separators (text : jsstring) (data : list Row) (row : Row)
    (name v : jsstring) :
  parseCSV (Some text) = Resolved data →
  row ∈ data →
  row !! name = Some v →
  ∀ c, c ∈ name ++ v → c ≠ 44%N ∧ c ≠ 34%N ∧ c ≠ 10%N ∧ c ∈ text.
Proof.
  intros Hp Hrow Hv c Hc.
  destruct (parseCSV_rows text data row Hp Hrow) as (H2 & line & Hl & _ & ->).
  apply fillRow_lookup_Some in Hv as (Hn & Hval & _).
  apply elem_of_app in Hc as [Hc|Hc].
  - unfold csvHeaders in Hn.
    apply list_elem_of_fmap in Hn as (piece & -> & Hpiece).
    exact (cleaned_piece_chars text _ piece c (head_nonBlankLines text H2)
             Hpiece Hc).
  - apply list_elem_of_fmap in Hval as (piece & -> & Hpiece).
    exact (cleaned_piece_chars text line piece c (tail_elem _ _ Hl) Hpiece Hc).
Qed.

Lemma keyOf_spec_trimmed (row : Row) :
  (∀ name v, row !! name = Some v → trim v = v) →
  keyOf row = spec_extractKey row.
Proof.
  intros H. rewrite keyOf_eq.
  unfold firstNonEmpty, spec_extractKey, spec_field.
  destruct (row !! js "transaction_reference") as [[|c s]|] eqn:E1.
  2: { rewrite (H _ _ E1). reflexivity. }
  all: change (trim []) with (@nil N);
    destruct (row !! js "reference") as [[|c' s']|] eqn:E2;
    try (rewrite (H _ _ E2); reflexivity);
    change (trim []) with (@nil N);
    destruct (row !! js "id") as [[|c'' s'']|] eqn:E3; simpl default;
    try (rewrite (H _ _ E3)); reflexivity.
Qed.

(** X10.  When the text holds no double quote, every value of every row
    [parseCSV] returns is trimmed, and the key the engine extracts from such
    a row is the first of [transaction_reference], [reference], [id] that
    is non-empty after trimming: a blank field standing in front of a usable
    one can only come from a quoted cell. *)
Theorem parseCSV_quote_free_keys (text : jsstring) (data : list Row) (row : Row) :
  34%N ∉ text →
  parseCSV (Some text) = Resolved data →
  row ∈ data →
  (∀ name v, row !! name = Some v → trim v = v)
  ∧ keyOf row = spec_extractKey row.
Proof.
  intros Hq Hp Hrow.
  assert (Htrim : ∀ name v, row !! name = Some v → trim v = v).
  { intros name v Hv.
    destruct (parseCSV_rows text data row Hp Hrow) as (_ & line & Hl & _ & ->).
    apply fillRow_lookup_Some in Hv as (_ & Hval & _).
    apply list_elem_of_fmap in Hval as (piece & -> & Hpiece).
    rewrite cleanField_quote_free; [apply trim_idem|].
    intros H34. apply Hq.
    apply tail_elem, nonBlankLines_elem in Hl as [Hl _].
    apply String_split_pieces in Hl as [_ Hl].
    apply String_split_pieces in Hpiece as [_ Hpiece]. auto. }
  split; [exact Htrim | apply keyOf_spec_trimmed, Htrim].
Qed.


(** The sample text: no separator in the amount of its row. *)
Lemma parseCSV_no_separators_sample :
  parseCSV (Some sample_text) = Resolved [T1_internal]
  ∧ T1_internal !! js "amount" = Some (js "10.00")
  ∧ ∀ c, c ∈ js "amount" ++ js "10.00" →
         c ≠ 44%N ∧ c ≠ 34%N ∧ c ≠ 10%N ∧ c ∈ sample_text.
Proof.
  assert (E : parseCSV (Some sample_text) = Resolved [T1_internal])
    by (vm_compute; reflexivity).
  assert (E' : T1_internal !! js "amount" = Some (js "10.00"))
    by (vm_compute; reflexivity).
  split; [exact E|]. split; [exact E'|].
  exact (parseCSV_no_separators sample_text [T1_internal] T1_internal
           (js "amount") (js "10.00") E (list_elem_of_here _ _) E').
Defined.

(** The sample text has no double quote: the key of its row is [T1]. *)
Lemma parseCSV_quote_free_keys_sample :
  parseCSV (Some sample_text) = Resolved [T1_internal]
  ∧ keyOf T1_internal = spec_extractKey T1_internal
  ∧ keyOf T1_internal = Some (js "T1").
Proof.
  assert (E : parseCSV (Some sample_text) = Resolved [T1_internal])
    by (vm_compute; reflexivity).
  split; [exact E|]. split; [|vm_compute; reflexivity].
  apply (parseCSV_quote_free_keys sample_text [T1_internal] T1_internal).
  - intros H. apply list_elem_of_In in H. vm_compute in H.
    repeat (destruct H as [H|H]; [discriminate|]). exact H.
  - exact E.
  - apply list_elem_of_here.
Defined.

(** * Exporting *)

(** ** Escaping a cell *)

Lemma doubleQuotes_cons c s :
  doubleQuotes (c :: s) = (if N.eqb c 34 then [34%N; 34%N] else [c]) ++ doubleQuotes s.
Proof. reflexivity. Qed.

Lemma doubleQuotes_inj a b : doubleQuotes a = doubleQuotes b → a = b.
Proof.
  revert b. induction a as [|c a IH]; intros [|d b].
  - reflexivity.
  - rewrite doubleQuotes_cons. destruct (N.eqb d 34); discriminate.
  - rewrite doubleQuotes_cons. destruct (N.eqb c 34); discriminate.
  - rewrite !doubleQuotes_cons.
    destruct (N.eqb c 34) eqn:Ec, (N.eqb d 34) eqn:Ed; simpl.
    + apply N.eqb_eq in Ec, Ed. intros [= H]. subst. f_equal. auto.
    + apply N.eqb_eq in Ec. apply N.eqb_neq in Ed. intros [= H _]. congruence.
    + apply N.eqb_neq in Ec. apply N.eqb_eq in Ed. intros [= H _]. congruence.
    + intros [= -> H]. f_equal. auto.
Qed.

Lemma doubleQuotes_count s : Nat.Even (length (filter (fun c => c = 34%N) (doubleQuotes s))).
Proof.
  induction s as [|c s IH]; [exists 0; reflexivity|].
  rewrite doubleQuotes_cons, filter_app, length_app.
  destruct (N.eqb c 34) eqn:E.
  - destruct IH as [n Hn]. exists (S n). rewrite Hn.
    rewrite !filter_cons_True by reflexivity. simpl. lia.
  - apply N.eqb_neq in E. rewrite filter_cons_False by exact E. exact IH.
Qed.

Lemma includes_true s c : includes s c = true ↔ c ∈ s.
Proof. unfold includes. apply bool_decide_eq_true. Qed.

Lemma includes_false s c : includes s c = false ↔ c ∉ s.
Proof. unfold includes. apply bool_decide_eq_false. Qed.

Lemma escapeCSVValue_string (s : jsstring) :
  escapeCSVValue (VString s) =
  Ok (if includes s 44 || includes s 34 || includes s 10
      then [34%N] ++ doubleQuotes s ++ [34%N] else s).
Proof. reflexivity. Qed.

(** X11.  [escapeCSVValue] loses nothing and keeps the quotes balanced: two
    different strings never give the same cell, a string without comma,
    double quote and line feed is written as it is, and in any other case
    the cell begins and ends with a double quote and holds an even number of
    them. *)
Theorem escapeCSVValue_faithful (a b : jsstring) :
  (escapeCSVValue (VString a) = escapeCSVValue (VString b) ↔ a = b)
  ∧ ∃ cell,
      escapeCSVValue (VString a) = Ok cell
      ∧ Nat.Even (length (filter (fun c => c = 34%N) cell))
      ∧ ((44%N ∉ a) ∧ (34%N ∉ a) ∧ (10%N ∉ a) → cell = a)
      ∧ (44%N ∈ a ∨ 34%N ∈ a ∨ 10%N ∈ a →
         ∃ inner, cell = [34%N] ++ inner ++ [34%N]).
Proof.
  split.
  - split; [|intros ->; reflexivity].
    rewrite !escapeCSVValue_string. intros [= H].
    destruct (includes a 44 || includes a 34 || includes a 10) eqn:Ea,
             (includes b 44 || includes b 34 || includes b 10) eqn:Eb.
    + simpl in H. injection H as H. apply app_inv_tail in H.
      apply doubleQuotes_inj, H.
    + subst b. simpl in Eb. rewrite !orb_false_iff in Eb.
      destruct Eb as [[_ Eb] _]. apply includes_false in Eb.
      exfalso. apply Eb, list_elem_of_here.
    + subst a. simpl in Ea. rewrite !orb_false_iff in Ea.
      destruct Ea as [[_ Ea] _]. apply includes_false in Ea.
      exfalso. apply Ea, list_elem_of_here.
    + exact H.
  - rewrite escapeCSVValue_string. eexists. split; [reflexivity|].
    destruct (includes a 44 || includes a 34 || includes a 10) eqn:Ea.
    + split; [|split].
      * rewrite !filter_app, !length_app.
        rewrite !filter_cons_True by reflexivity. simpl.
        destruct (doubleQuotes_count a) as [n Hn]. exists (S n). lia.
      * intros (H1 & H2 & H3). apply includes_false in H1, H2, H3.
        rewrite H1, H2, H3 in Ea. discriminate.
      * intros _. eauto.
    + rewrite !orb_false_iff in Ea. destruct Ea as [[E1 E2] E3].
      apply includes_false in E1, E2, E3.
      split; [|split].
      * rewrite filter_none; [exists 0; reflexivity|].
        intros c Hc ->. contradiction.
      * reflexivity.
      * intros [H|[H|H]]; contradiction.
Qed.

(** ** The lines of the export *)

Lemma mapM_Ok {A B} (f : A → exc B) (l : list A) :
  (∀ x, x ∈ l → ∃ y, f x = Ok y) →
  ∃ ys, mapM f l = Ok ys ∧ length ys = length l.
Proof.
  induction l as [|x l IH]; intros H.
  - exists []. split; reflexivity.
  - destruct (H x (list_elem_of_here _ _)) as [y Hy].
    destruct IH as (ys & Hys & Hlen).
    { intros z Hz. apply H, list_elem_of_further, Hz. }
    exists (y :: ys). split; [|simpl; congruence].
    simpl. rewrite Hy. simpl. rewrite Hys. reflexivity.
Qed.

Lemma mapM_Ok_length {A B} (f : A → exc B) (l : list A) (ys : list B) :
  mapM f l = Ok ys → length ys = length l.
Proof.
  revert ys. induction l as [|x l IH]; intros ys.
  - intros [= <-]. reflexivity.
  - simpl. destruct (f x) as [y|]; [|discriminate]. simpl.
    destruct (mapM f l) as [k|] eqn:E; [|discriminate]. simpl.
    intros [= <-]. simpl. f_equal. apply IH. reflexivity.
Qed.

Lemma escapeCSVValue_defined (v : value) :
  v ≠ VUndefined → ∃ cell, escapeCSVValue v = Ok cell.
Proof. destruct v; [congruence | eexists; reflexivity ..]. Qed.

Lemma csvLine_Ok (cells : list value) :
  Forall (fun v => v ≠ VUndefined) cells → ∃ line, csvLine cells = Ok line.
Proof.
  intros H. unfold csvLine.
  destruct (mapM_Ok escapeCSVValue cells) as (ys & -> & _).
  - intros v Hv. rewrite Forall_forall in H.
    apply escapeCSVValue_defined, H, Hv.
  - eexists. reflexivity.
Qed.

Lemma csvContent_Ok (headers : list value) (rows : list (list value)) :
  Forall (fun v => v ≠ VUndefined) headers →
  Forall (Forall (fun v => v ≠ VUndefined)) rows →
  ∃ headerLine rowLines,
    csvLine headers = Ok headerLine
    ∧ length rowLines = length rows
    ∧ csvContent headers rows = Ok (join [10%N] (headerLine :: rowLines)).
Proof.
  intros Hh Hr. unfold csvContent.
  destruct (csvLine_Ok headers Hh) as [hl Hhl].
  destruct (mapM_Ok csvLine rows) as (rls & Hrls & Hlen).
  { intros cells Hc. rewrite Forall_forall in Hr. apply csvLine_Ok, Hr, Hc. }
  exists hl, rls. rewrite Hhl, Hrls. auto.
Qed.

Lemma csvContent_inv (headers : list value) (rows : list (list value))
    (content : jsstring) :
  csvContent headers rows = Ok content →
  ∃ headerLine rowLines,
    csvLine headers = Ok headerLine
    ∧ length rowLines = length rows
    ∧ content = join [10%N] (headerLine :: rowLines).
Proof.
  unfold csvContent. destruct (csvLine headers) as [hl|]; [|discriminate].
  simpl. destruct (mapM csvLine rows) as [rls|] eqn:E; [|discriminate].
  simpl. intros [= <-]. exists hl, rls.
  split; [reflexivity|]. split; [apply (mapM_Ok_length _ _ _ E) | reflexivity].
Qed.

Lemma js_or_defined (v w : value) : w ≠ VUndefined → js_or v w ≠ VUndefined.
Proof.
  intros Hw. unfold js_or. destruct (ToBoolean v) eqn:E; [|exact Hw].
  intros ->. discriminate.
Qed.

Lemma onlyCells_defined (source : jsstring) (x : exportItem) :
  Forall (fun v => v ≠ VUndefined) (onlyCells source x).
Proof.
  unfold onlyCells, orEmpty, amountCell.
  repeat apply Forall_cons_2; try apply Forall_nil_2;
    try (apply js_or_defined); discriminate.
Qed.

Lemma matchedCells_MatchItem (d : MatchData) :
  ∃ cells, matchedCells (MatchItem d) = Ok cells
           ∧ Forall (fun v => v ≠ VUndefined) cells.
Proof.
  eexists. split; [reflexivity|]. unfold orEmpty, amountCell.
  repeat apply Forall_cons_2; try apply Forall_nil_2;
    try (apply js_or_defined); discriminate.
Qed.

Lemma mismatchedCells_MatchItem (d : MatchData) :
  ∃ cells, mismatchedCells (MatchItem d) = Ok cells
           ∧ Forall (fun v => v ≠ VUndefined) cells.
Proof.
  eexists. split; [reflexivity|]. unfold orEmpty, amountCell.
  repeat apply Forall_cons_2; try apply Forall_nil_2;
    try (apply js_or_defined); discriminate.
Qed.

Lemma mapM_cells_Ok (f : exportItem → exc (list value)) (l : list MatchData) :
  (∀ d, ∃ cells, f (MatchItem d) = Ok cells
                 ∧ Forall (fun v => v ≠ VUndefined) cells) →
  ∃ rows, mapM f (MatchItem <$> l) = Ok rows
          ∧ length rows = length l
          ∧ Forall (Forall (fun v => v ≠ VUndefined)) rows.
Proof.
  intros H. induction l as [|d l IH].
  - exists []. split; [reflexivity|]. split; [reflexivity | apply Forall_nil_2].
  - destruct (H d) as (cells & Hc & Hdef).
    destruct IH as (rows & Hr & Hlen & Hrows).
    exists (cells :: rows). split; [|split].
    + rewrite fmap_cons. simpl. rewrite Hc. simpl. rewrite Hr. reflexivity.
    + simpl. congruence.
    + apply Forall_cons_2; assumption.
Qed.

Lemma headers_defined :
  Forall (fun v => v ≠ VUndefined) matchedHeaders
  ∧ Forall (fun v => v ≠ VUndefined) mismatchedHeaders
  ∧ Forall (fun v => v ≠ VUndefined) onlyHeaders.
Proof.
  repeat split; repeat apply Forall_cons_2; try apply Forall_nil_2; discriminate.
Qed.

Lemma headerLines :
  csvLine matchedHeaders
  = Ok (js "Transaction Reference,Amount,Status,Date,Match Type")
  ∧ csvLine mismatchedHeaders
    = Ok (js "Transaction Reference,Internal Amount,Provider Amount,Internal Status,Provider Status,Amount Match,Status Match")
  ∧ csvLine onlyHeaders
    = Ok (js "Transaction Reference,Amount,Status,Date,Source").
Proof. repeat split; vm_compute; reflexivity. Qed.

Ltac decide_names :=
  repeat match goal with
         | |- context [decide (?a = ?b)] =>
             let H := fresh "Hdec" in
             destruct (decide (a = b)) as [H|H];
             [try (exfalso; vm_compute in H; discriminate H)
             |try (exfalso; apply H; reflexivity)]
         end.

Lemma convertToCSV_matches (l : list MatchData) (type : jsstring) :
  l ≠ [] → type = js "matched" ∨ type = js "mismatched" →
  ∃ headerLine rowLines,
    headerLine ∈ exportHeaderLines ∧ length rowLines = length l
    ∧ convertToCSV (MatchItem <$> l) type
      = Ok (join [10%N] (headerLine :: rowLines)).
Proof.
  intros Hl Ht. unfold convertToCSV. rewrite length_fmap.
  destruct l as [|d l]; [congruence|]. simpl Nat.eqb. cbv iota.
  destruct headers_defined as (H1 & H2 & _).
  destruct headerLines as (L1 & L2 & _).
  destruct Ht as [-> | ->]; decide_names.
  - destruct (mapM_cells_Ok matchedCells (d :: l) matchedCells_MatchItem)
      as (rows & -> & Hlr & Hrows).
    destruct (csvContent_Ok matchedHeaders rows H1 Hrows)
      as (hl & rls & Hhl & Hlen & Hc).
    exists hl, rls. rewrite L1 in Hhl. injection Hhl as <-.
    split; [apply list_elem_of_here|]. split; [congruence | exact Hc].
  - destruct (mapM_cells_Ok mismatchedCells (d :: l) mismatchedCells_MatchItem)
      as (rows & -> & Hlr & Hrows).
    destruct (csvContent_Ok mismatchedHeaders rows H2 Hrows)
      as (hl & rls & Hhl & Hlen & Hc).
    exists hl, rls. rewrite L2 in Hhl. injection Hhl as <-.
    split; [apply list_elem_of_further, list_elem_of_here|].
    split; [congruence | exact Hc].
Qed.

Lemma convertToCSV_rows (data : list exportItem) (type : jsstring) :
  data ≠ [] → type = js "internal_only" ∨ type = js "provider_only" →
  ∃ headerLine rowLines,
    headerLine ∈ exportHeaderLines ∧ length rowLines = length data
    ∧ convertToCSV data type = Ok (join [10%N] (headerLine :: rowLines)).
Proof.
  intros Hl Ht. unfold convertToCSV.
  destruct data as [|x data]; [congruence|]. simpl Nat.eqb. cbv iota.
  destruct headers_defined as (_ & _ & H3).
  destruct headerLines as (_ & _ & L3).
  destruct Ht as [-> | ->]; decide_names.
  - destruct (csvContent_Ok onlyHeaders
                (onlyCells (js "Internal System Only") <$> x :: data) H3)
      as (hl & rls & Hhl & Hlen & Hc).
    { apply Forall_fmap, Forall_forall. intros y _. apply onlyCells_defined. }
    exists hl, rls. rewrite L3 in Hhl. injection Hhl as <-.
    split; [do 2 apply list_elem_of_further; apply list_elem_of_here|].
    split; [rewrite Hlen; apply length_fmap | exact Hc].
  - destruct (csvContent_Ok onlyHeaders
                (onlyCells (js "Provider Statement Only") <$> x :: data) H3)
      as (hl & rls & Hhl & Hlen & Hc).
    { apply Forall_fmap, Forall_forall. intros y _. apply onlyCells_defined. }
    exists hl, rls. rewrite L3 in Hhl. injection Hhl as <-.
    split; [do 2 apply list_elem_of_further; apply list_elem_of_here|].
    split; [rewrite Hlen; apply length_fmap | exact Hc].
Qed.

(** Whatever the data and the type, a returned text is one of the two
    notices or a header line followed by the lines of the rows. *)
Lemma convertToCSV_inv (data : list exportItem) (type content : jsstring) :
  convertToCSV data type = Ok content →
  content = js "No data available for export"
  ∨ content = js "Invalid export type"
  ∨ ∃ headerLine rowLines,
      headerLine ∈ exportHeaderLines ∧ length rowLines = length data
      ∧ data ≠ []
      ∧ content = join [10%N] (headerLine :: rowLines).
Proof.
  unfold convertToCSV. destruct data as [|x data].
  { simpl. intros [= <-]. auto. }
  simpl Nat.eqb. cbv iota.
  destruct headerLines as (L1 & L2 & L3).
  destruct (decide (type = js "matched")).
  { destruct (mapM matchedCells (x :: data)) as [rows|] eqn:E; [|discriminate].
    rewrite exc_bind_Ok. intros H.
    apply csvContent_inv in H as (hl & rls & Hhl & Hlen & ->).
    right. right. exists hl, rls. rewrite L1 in Hhl. injection Hhl as <-.
    split; [apply list_elem_of_here|].
    split; [rewrite Hlen; apply (mapM_Ok_length _ _ _ E)|].
    split; [discriminate | reflexivity]. }
  destruct (decide (type = js "mismatched")).
  { destruct (mapM mismatchedCells (x :: data)) as [rows|] eqn:E; [|discriminate].
    rewrite exc_bind_Ok. intros H.
    apply csvContent_inv in H as (hl & rls & Hhl & Hlen & ->).
    right. right. exists hl, rls. rewrite L2 in Hhl. injection Hhl as <-.
    split; [apply list_elem_of_further, list_elem_of_here|].
    split; [rewrite Hlen; apply (mapM_Ok_length _ _ _ E)|].
    split; [discriminate | reflexivity]. }
  destruct (decide (type = js "internal_only")).
  { intros H. apply csvContent_inv in H as (hl & rls & Hhl & Hlen & ->).
    right. right. exists hl, rls. rewrite L3 in Hhl. injection Hhl as <-.
    split; [do 2 apply list_elem_of_further; apply list_elem_of_here|].
    split; [rewrite Hlen; apply length_fmap|].
    split; [discriminate | reflexivity]. }
  destruct (decide (type = js "provider_only")).
  { intros H. apply csvContent_inv in H as (hl & rls & Hhl & Hlen & ->).
    right. right. exists hl, rls. rewrite L3 in Hhl. injection Hhl as <-.
    split; [do 2 apply list_elem_of_further; apply list_elem_of_here|].
    split; [rewrite Hlen; apply length_fmap|].
    split; [discriminate | reflexivity]. }
  intros [= <-]. auto.
Qed.

(** ** Reading an export back *)

Lemma String_split_no_sep sep s : sep ∉ s → String_split sep s = [s].
Proof.
  induction s as [|c s IH]; [reflexivity|].
  rewrite not_elem_of_cons. intros [Hc Hs]. rewrite String_split_cons.
  apply not_eq_sym, N.eqb_neq in Hc. rewrite Hc, (IH Hs). reflexivity.
Qed.

Lemma String_split_app sep h rest :
  sep ∉ h → String_split sep (h ++ sep :: rest) = h :: String_split sep rest.
Proof.
  induction h as [|c h IH].
  - intros _. simpl. rewrite N.eqb_refl. reflexivity.
  - rewrite not_elem_of_cons. intros [Hc Hs].
    change ((c :: h) ++ sep :: rest) with (c :: (h ++ sep :: rest)).
    rewrite String_split_cons.
    apply not_eq_sym, N.eqb_neq in Hc. rewrite Hc, (IH Hs). reflexivity.
Qed.

Lemma exportHeaderLines_facts (h : jsstring) :
  h ∈ exportHeaderLines →
  (10%N ∉ h)
  ∧ ToBoolean (VString (trim h)) = true
  ∧ (js "transaction_reference" ∉ cleanField <$> String_split 44 h)
  ∧ (js "reference" ∉ cleanField <$> String_split 44 h)
  ∧ (js "id" ∉ cleanField <$> String_split 44 h).
Proof.
  unfold exportHeaderLines. rewrite !elem_of_cons.
  intros [->|[->|[->|H]]]; [| | |inversion H];
    (split; [apply (bool_decide_unpack _); vm_compute; exact I|]);
    (split; [vm_compute; reflexivity|]);
    (split; [apply (bool_decide_unpack _); vm_compute; exact I|]);
    (split; apply (bool_decide_unpack _); vm_compute; exact I).
Qed.

Lemma keyOf_no_key_columns (row : Row) :
  row !! js "transaction_reference" = None →
  row !! js "reference" = None →
  row !! js "id" = None →
  keyOf row = None.
Proof.
  intros H1 H2 H3. rewrite keyOf_eq. unfold firstNonEmpty.
  rewrite H1, H2, H3. reflexivity.
Qed.

Lemma keyedRows_keyless (rows : list Row) :
  (∀ row, row ∈ rows → keyOf row = None) → keyedRows rows = [].
Proof.
  induction rows as [|row rows IH]; intros H; [reflexivity|].
  unfold keyedRows in *. simpl.
  rewrite (H row) by apply list_elem_of_here. simpl.
  apply IH. intros r Hr. apply H, list_elem_of_further, Hr.
Qed.

(** X12.  A text produced by [convertToCSV] cannot be fed back to the tool:
    when [parseCSV] accepts it, its columns are the display names of the
    export, none of them [transaction_reference], [reference] or [id], so
    that no row read from it has a key and the index built from the rows is
    empty. *)
Theorem exported_file_has_no_keys (data : list exportItem)
    (type content : jsstring) (rows : list Row) :
  convertToCSV data type = Ok content →
  parseCSV (Some content) = Resolved rows →
  (∀ row, row ∈ rows →
     row !! js "transaction_reference" = None
     ∧ row !! js "reference" = None
     ∧ row !! js "id" = None
     ∧ keyOf row = None)
  ∧ buildIndex rows = Ok [].
Proof.
  intros Hc Hp.
  assert (Hrows : ∀ row, row ∈ rows →
            row !! js "transaction_reference" = None
            ∧ row !! js "reference" = None
            ∧ row !! js "id" = None).
  { intros row Hrow.
    apply convertToCSV_inv in Hc as [->|[->|(hl & rls & Hhl & _ & _ & ->)]];
      [vm_compute in Hp; discriminate | vm_compute in Hp; discriminate |].
    destruct (exportHeaderLines_facts hl Hhl) as (H10 & Hnb & K1 & K2 & K3).
    destruct (parseCSV_rows _ _ _ Hp Hrow) as (Hlen & line & _ & _ & ->).
    assert (Hhead : csvHeaders (nonBlankLines (join [10%N] (hl :: rls)))
                    = cleanField <$> String_split 44 hl).
    { destruct rls as [|r rls].
      - exfalso. simpl in Hlen. unfold nonBlankLines in Hlen.
        rewrite (String_split_no_sep _ _ H10) in Hlen.
        rewrite filter_cons_True in Hlen by exact Hnb. simpl in Hlen. lia.
      - change (join [10%N] (hl :: r :: rls))
          with (hl ++ 10%N :: join [10%N] (r :: rls)).
        unfold nonBlankLines. rewrite (String_split_app _ _ _ H10).
        rewrite filter_cons_True by exact Hnb. reflexivity. }
    rewrite Hhead.
    repeat split;
      match goal with
      | |- ?m !! ?k = None =>
          destruct (m !! k) eqn:E; [|reflexivity];
          apply fillRow_lookup_Some in E as [E _]; contradiction
      end. }
  assert (Hkeys : ∀ row, row ∈ rows → keyOf row = None).
  { intros row Hrow. destruct (Hrows row Hrow) as (H1 & H2 & H3).
    apply keyOf_no_key_columns; assumption. }
  split.
  - intros row Hrow. destruct (Hrows row Hrow) as (H1 & H2 & H3). auto.
  - rewrite buildIndex_eq. unfold indexOf.
    rewrite (keyedRows_keyless rows Hkeys). reflexivity.
Qed.

(** Exporting the internal row of Scenario A and reading the text back:
    [parseCSV] accepts it, and the row it gives has no key. *)
Lemma exported_file_has_no_keys_scenarioA :
  ∃ (content : jsstring) (rows : list Row),
    convertToCSV [RowItem T1_internal] (js "internal_only") = Ok content
    ∧ parseCSV (Some content) = Resolved rows
    ∧ length rows = 1
    ∧ (∀ row, row ∈ rows → keyOf row = None)
    ∧ buildIndex rows = Ok [].
Proof.
  destruct (convertToCSV [RowItem T1_internal] (js "internal_only"))
    as [content|] eqn:Ec; [|vm_compute in Ec; discriminate].
  destruct (parseCSV (Some content)) as [rows|] eqn:Ep;
    [|vm_compute in Ec; injection Ec as <-; vm_compute in Ep; discriminate].
  exists content, rows. split; [reflexivity|]. split; [exact Ep|].
  destruct (exported_file_has_no_keys _ _ _ _ Ec Ep) as [H1 H2].
  split.
  - vm_compute in Ec. injection Ec as <-. vm_compute in Ep.
    injection Ep as <-. reflexivity.
  - split; [intros row Hrow; apply H1, Hrow | exact H2].
Defined.

(** ** [exportCategory] *)

Section ExportFacts.
Variable toLowerCase : jsstring → jsstring.

Lemma join_head_T (hl : jsstring) (rls : list jsstring) :
  hl ∈ exportHeaderLines → head (join [10%N] (hl :: rls)) = Some 84%N.
Proof.
  unfold exportHeaderLines. rewrite !elem_of_cons.
  intros [->|[->|[->|H]]]; [| | |inversion H]; destruct rls; reflexivity.
Qed.

Lemma download_facts (cur : option Results) (results : Results)
    (category timestamp stem hl : jsstring) (rls : list jsstring) (n : nat) :
  cur = Some results →
  categoryLength results category = Some n → 1 ≤ n →
  hl ∈ exportHeaderLines → length rls = n →
  ∃ results' headerLine rowLines stem',
    cur = Some results'
    ∧ categoryLength results' category = Some n ∧ 1 ≤ n
    ∧ headerLine ∈ exportHeaderLines ∧ length rowLines = n
    ∧ join [10%N] (hl :: rls) = join [10%N] (headerLine :: rowLines)
    ∧ join [10%N] (hl :: rls) ≠ js "No data available for export"
    ∧ join [10%N] (hl :: rls) ≠ js "Invalid export type"
    ∧ stem ++ timestamp ++ js ".csv" = stem' ++ timestamp ++ js ".csv".
Proof.
  intros H1 H2 H3 H4 H5. exists results, hl, rls, stem.
  pose proof (join_head_T hl rls H4) as Hh.
  repeat split; auto; intros E; rewrite E in Hh; discriminate.
Qed.

(** X13.  [exportCategory] raises no error.  It downloads a file exactly
    when results are stored, the category is one of the four and that
    category is not empty; the file is then never one of the two notices of
    [convertToCSV] but a header line followed by as many row lines as the
    category has entries, which is also the number the success message
    shows; its name ends with the time stamp and [.csv].  In every other
    case it ends in an alert. *)
Theorem exportCategory_outcome (this : ReconciliationTool)
    (timestamp category : jsstring) :
  ∃ outcome,
    exportCategory toLowerCase this timestamp category = Ok outcome
    ∧ (∀ filename content displayName n,
         outcome = Downloaded filename content displayName n →
         ∃ results headerLine rowLines stem,
           currentResults this = Some results
           ∧ categoryLength results category = Some n ∧ 1 ≤ n
           ∧ headerLine ∈ exportHeaderLines ∧ length rowLines = n
           ∧ content = join [10%N] (headerLine :: rowLines)
           ∧ content ≠ js "No data available for export"
           ∧ content ≠ js "Invalid export type"
           ∧ filename = stem ++ timestamp ++ js ".csv")
    ∧ (∀ message, outcome = Alerted message →
         currentResults this = None
         ∨ ∃ results,
             currentResults this = Some results
             ∧ (categoryLength results category = None
                ∨ categoryLength results category = Some 0)).
Proof.
  unfold exportCategory.
  destruct (currentResults this) as [results|] eqn:Ecur;
    [|eexists; split; [reflexivity|]; split; [discriminate | auto]].
  destruct (decide (category = js "matched")) as [->|N1].
  { assert (Hcat : categoryLength results (js "matched")
                   = Some (length (matched results))) by reflexivity.
    destruct (matched results) as [|d l] eqn:El.
    - eexists. split; [reflexivity|]. split; [discriminate|].
      intros message _. right. exists results. auto.
    - rewrite length_fmap. change (length (d :: l) =? 0) with false. cbv iota.
      destruct (convertToCSV_matches (d :: l) (js "matched"))
        as (hl & rls & Hhl & Hlen & ->); [discriminate | auto|].
      eexists. split; [reflexivity|]. split; [|discriminate].
      intros filename content displayName n Heq.
      injection Heq as <- <- <- <-.
      refine (download_facts (Some results) results _ timestamp (js "perfect-matches-")
                hl rls _ eq_refl Hcat _ Hhl Hlen). simpl; lia. }
  destruct (decide (category = js "mismatched")) as [->|N2].
  { assert (Hcat : categoryLength results (js "mismatched")
                   = Some (length (mismatched results))) by reflexivity.
    destruct (mismatched results) as [|d l] eqn:El.
    - eexists. split; [reflexivity|]. split; [discriminate|].
      intros message _. right. exists results. auto.
    - rewrite length_fmap. change (length (d :: l) =? 0) with false. cbv iota.
      destruct (convertToCSV_matches (d :: l) (js "mismatched"))
        as (hl & rls & Hhl & Hlen & ->); [discriminate | auto|].
      eexists. split; [reflexivity|]. split; [|discriminate].
      intros filename content displayName n Heq.
      injection Heq as <- <- <- <-.
      refine (download_facts (Some results) results _ timestamp
                (js "mismatched-transactions-") hl rls _ eq_refl Hcat _ Hhl Hlen).
      simpl; lia. }
  destruct (decide (category = js "internal_only")) as [->|N3].
  { assert (Hcat : categoryLength results (js "internal_only")
                   = Some (length (internal_only results))) by reflexivity.
    destruct (internal_only results) as [|d l] eqn:El.
    - eexists. split; [reflexivity|]. split; [discriminate|].
      intros message _. right. exists results. auto.
    - rewrite length_fmap. change (length (d :: l) =? 0) with false. cbv iota.
      destruct (convertToCSV_rows (RowItem <$> d :: l) (js "internal_only"))
        as (hl & rls & Hhl & Hlen & ->); [discriminate | auto|].
      rewrite length_fmap in Hlen.
      eexists. split; [reflexivity|]. split; [|discriminate].
      intros filename content displayName n Heq.
      injection Heq as <- <- <- <-.
      refine (download_facts (Some results) results _ timestamp (js "internal-only-")
                hl rls _ eq_refl Hcat _ Hhl Hlen). simpl; lia. }
  destruct (decide (category = js "provider_only")) as [->|N4].
  { assert (Hcat : categoryLength results (js "provider_only")
                   = Some (length (provider_only results))) by reflexivity.
    destruct (provider_only results) as [|d l] eqn:El.
    - eexists. split; [reflexivity|]. split; [discriminate|].
      intros message _. right. exists results. auto.
    - rewrite length_fmap. change (length (d :: l) =? 0) with false. cbv iota.
      destruct (convertToCSV_rows (RowItem <$> d :: l) (js "provider_only"))
        as (hl & rls & Hhl & Hlen & ->); [discriminate | auto|].
      rewrite length_fmap in Hlen.
      eexists. split; [reflexivity|]. split; [|discriminate].
      intros filename content displayName n Heq.
      injection Heq as <- <- <- <-.
      refine (download_facts (Some results) results _ timestamp (js "provider-only-")
                hl rls _ eq_refl Hcat _ Hhl Hlen). simpl; lia. }
  eexists. split; [reflexivity|]. split; [discriminate|].
  intros message _. right. exists results. split; [reflexivity|]. left.
  unfold categoryLength.
  repeat (destruct (decide _); [contradiction|]). reflexivity.
Qed.
End ExportFacts.

(** ** The counts of the summary and the exports *)

Lemma reachable_results (toLowerCase : jsstring → jsstring)
    (this : ReconciliationTool) (r : Results) :
  reachable toLowerCase this → currentResults this = Some r →
  ∃ internalData providerData : list Row,
    r = reconciled toLowerCase internalData providerData.
Proof.
  intros Hreach. revert r.
  induction Hreach as [|this0 internalData providerData Hreach IH]; intros r.
  - discriminate.
  - unfold processReconciliation.
    destruct ((length internalData =? 0) || (length providerData =? 0));
      [apply IH|].
    rewrite reconcileTransactions_eq. intros [= <-]. eauto.
Qed.

Section ExportCountFacts.
Variable toLowerCase : jsstring → jsstring.

(** X14.  The number of records a download reports is the count the summary
    shows for that category: for results stored by a run of the tool, an
    export of [matched], [mismatched], [internal_only] or [provider_only]
    has as many row lines as [matched_count], [mismatched_count],
    [internal_only_count] or [provider_only_count] says. *)
Theorem export_count_is_summary_count (this : ReconciliationTool)
    (timestamp category filename content displayName : jsstring) (n : nat) :
  reachable toLowerCase this →
  exportCategory toLowerCase this timestamp category
    = Ok (Downloaded filename content displayName n) →
  ∃ r s,
    currentResults this = Some r ∧ summary r = Some s
    ∧ (category = js "matched" ∧ n = matched_count s
       ∨ category = js "mismatched" ∧ n = mismatched_count s
       ∨ category = js "internal_only" ∧ n = internal_only_count s
       ∨ category = js "provider_only" ∧ n = provider_only_count s).
Proof.
  intros Hreach. unfold exportCategory.
  destruct (currentResults this) as [r|] eqn:Ecur; [|discriminate].
  destruct (reachable_results toLowerCase this r Hreach Ecur) as (i & p & ->).
  eexists. eexists. split; [reflexivity|]. split; [reflexivity|].
  revert H.
  destruct (decide (category = js "matched")) as [->|N1];
    [|destruct (decide (category = js "mismatched")) as [->|N2];
      [|destruct (decide (category = js "internal_only")) as [->|N3];
        [|destruct (decide (category = js "provider_only")) as [->|N4];
          [|discriminate]]]];
    match goal with
    | |- context [length ?data =? 0] =>
        destruct (length data =? 0); [discriminate|];
        destruct (convertToCSV data _); [|discriminate];
        rewrite exc_bind_Ok; intros [= _ _ _ <-]; rewrite length_fmap
    end.
  - left. auto.
  - right. left. auto.
  - right. right. left. auto.
  - right. right. right. auto.
Qed.
End ExportCountFacts.

(** After a run on Scenario A an export of [matched] reports one record. *)
Lemma export_count_scenarioA :
  ∃ (filename content displayName : jsstring) (r : Results) (s : Summary),
    exportCategory toLowerCase_basic_latin
      (processReconciliation toLowerCase_basic_latin constructor
         [T1_internal] [T1_provider])
      (js "2024-01-31") (js "matched")
    = Ok (Downloaded filename content displayName 1)
    ∧ summary r = Some s ∧ matched_count s = 1.
Proof.
  eexists. eexists. eexists.
  assert (E : exportCategory toLowerCase_basic_latin
                (processReconciliation toLowerCase_basic_latin constructor
                   [T1_internal] [T1_provider])
                (js "2024-01-31") (js "matched")
              = Ok (Downloaded
                      (js "perfect-matches-2024-01-31.csv")
                      (js "Transaction Reference,Amount,Status,Date,Match Type"
                       ++ LF ++ js "T1,10.00,Completed,,Perfect Match")
                      (js "Perfect Matches") 1))
    by (vm_compute; reflexivity).
  destruct (export_count_is_summary_count toLowerCase_basic_latin _ _ _ _ _ _ _
              (reachable_run _ _ _ _ (reachable_new _)) E)
    as (r & s & _ & Hs & [[_ Hn]|[[Hc _]|[[Hc _]|[Hc _]]]]);
    try (vm_compute in Hc; discriminate).
  exists r, s. split; [exact E|]. split; [exact Hs | symmetry; exact Hn].
Defined.

(** ** An export of rows read back *)

Lemma trim_no_white_space s :
  (∀ c, c ∈ s → isWhiteSpace c = false) → trim s = s.
Proof.
  intros H.
  assert (Hs : ∀ t, (∀ c, c ∈ t → isWhiteSpace c = false) → trimStart t = t).
  { intros [|c t] Ht; [reflexivity|]. simpl.
    rewrite (Ht c (list_elem_of_here _ _)). reflexivity. }
  unfold trim, trimEnd. rewrite (Hs s H), Hs; [apply rev_involutive|].
  intros c Hc. apply H, elem_of_rev, Hc.
Qed.

Lemma safeChar_spec c :
  safeChar c = true →
  isWhiteSpace c = false ∧ c ≠ 44%N ∧ c ≠ 34%N ∧ c ≠ 10%N.
Proof.
  unfold safeChar. rewrite !andb_true_iff, !negb_true_iff, !N.eqb_neq.
  intros [[H1 H2] H3]. repeat split; try assumption.
  intros ->. discriminate.
Qed.

Lemma safe_plainText s : (∀ c, c ∈ s → safeChar c = true) → plainText s.
Proof.
  intros H. split.
  - intros c Hc. destruct (safeChar_spec c (H c Hc)) as (_ & ? & ? & ?). auto.
  - apply trim_no_white_space. intros c Hc.
    destruct (safeChar_spec c (H c Hc)) as [? _]. assumption.
Qed.

Lemma uint_digits_safe d c : c ∈ uint_digits d → safeChar c = true.
Proof.
  induction d; simpl; rewrite ?elem_of_cons;
    [intros H; inversion H | intros [->|H]; [reflexivity | auto] ..].
Qed.

Lemma decimalString_safe n c : c ∈ decimalString n → safeChar c = true.
Proof. apply uint_digits_safe. Qed.

Lemma fixedDigits_safe n c : c ∈ fixedDigits n → safeChar c = true.
Proof.
  unfold fixedDigits. rewrite !elem_of_app. intros [H|[H|H]].
  - apply subseteq_take, elem_of_app in H as [H|H].
    + apply elem_of_replicate_inv in H as ->. reflexivity.
    + apply decimalString_safe in H. exact H.
  - apply list_elem_of_singleton in H as ->. reflexivity.
  - apply subseteq_drop, elem_of_app in H as [H|H].
    + apply elem_of_replicate_inv in H as ->. reflexivity.
    + apply decimalString_safe in H. exact H.
Qed.

Lemma exponentString_safe digits n c :
  (∀ x, x ∈ digits → safeChar x = true) →
  c ∈ exponentString digits n → safeChar c = true.
Proof.
  intros Hd. unfold exponentString.
  change (js "e+") with [101%N; 43%N].
  destruct digits as [|d [|d' rest]]; intros H;
    repeat match type of H with
           | _ ∈ _ ++ _ => apply elem_of_app in H as [H|H]
           | _ ∈ _ :: _ => apply elem_of_cons in H as [->|H]
           | _ ∈ [] => inversion H
           end;
    try reflexivity;
    try (apply decimalString_safe in H; exact H);
    apply Hd; repeat constructor; assumption.
Qed.

Lemma largeNumberString_safe m e c :
  c ∈ largeNumberString m e → safeChar c = true.
Proof.
  unfold largeNumberString. destruct (SFeqb _ _).
  - apply exponentString_safe. intros x Hx.
    apply list_elem_of_singleton in Hx as ->. reflexivity.
  - destruct (shortestDigits _ _ _ _ _) as [s k].
    apply exponentString_safe. intros x. apply decimalString_safe.
Qed.

Lemma toFixed2_safe x c : c ∈ toFixed2 x → safeChar c = true.
Proof.
  assert (Hconst : ∀ s : jsstring,
            forallb safeChar s = true → c ∈ s → safeChar c = true).
  { intros s Hs Hc. rewrite forallb_forall in Hs.
    apply Hs, list_elem_of_In, Hc. }
  destruct x as [s|s| |s m e]; simpl toFixed2.
  - apply Hconst. reflexivity.
  - destruct s; apply Hconst; reflexivity.
  - apply Hconst. reflexivity.
  - rewrite elem_of_app. intros [H|H].
    + destruct s; [|inversion H].
      apply list_elem_of_singleton in H as ->. reflexivity.
    + destruct (atLeast1e21 m e);
        [apply largeNumberString_safe in H | apply fixedDigits_safe in H];
        exact H.
Qed.

Lemma plainText_nil : plainText [].
Proof. split; [intros c H; inversion H | reflexivity]. Qed.

Lemma plainText_check (s : jsstring) :
  forallb (fun c => negb (N.eqb c 44) && negb (N.eqb c 34) && negb (N.eqb c 10)) s
  && bool_decide (trim s = s) = true →
  plainText s.
Proof.
  rewrite andb_true_iff, forallb_forall, bool_decide_eq_true.
  intros [H1 H2]. split; [|exact H2]. intros c Hc.
  apply list_elem_of_In, H1 in Hc.
  rewrite !andb_true_iff, !negb_true_iff, !N.eqb_neq in Hc. tauto.
Qed.

Lemma escapeCSVValue_plain (s : jsstring) :
  plainText s → escapeCSVValue (VString s) = Ok s.
Proof.
  intros [H _]. rewrite escapeCSVValue_string.
  assert (E : ∀ c, (c = 44 ∨ c = 34 ∨ c = 10)%N → includes s c = false).
  { intros c Hc. apply includes_false. intros Hin.
    destruct (H c Hin) as (? & ? & ?). destruct Hc as [-> | [-> | ->]]; congruence. }
  rewrite !E by auto. reflexivity.
Qed.

Lemma mapM_cons_Ok {A B} (f : A → exc B) x l y ys :
  f x = Ok y → mapM f l = Ok ys → mapM f (x :: l) = Ok (y :: ys).
Proof. intros Hx Hl. simpl. rewrite Hx. simpl. rewrite Hl. reflexivity. Qed.

Lemma csvLine_plain (cells : list jsstring) :
  Forall plainText cells → csvLine (VString <$> cells) = Ok (join [44%N] cells).
Proof.
  intros H. unfold csvLine.
  assert (E : mapM escapeCSVValue (VString <$> cells) = Ok cells).
  { induction H as [|s cells Hs H IH]; [reflexivity|].
    rewrite fmap_cons. apply mapM_cons_Ok; [apply escapeCSVValue_plain, Hs | exact IH]. }
  rewrite E. reflexivity.
Qed.

Lemma join_cons_cons sep x y l :
  join sep (x :: y :: l) = x ++ sep ++ join sep (y :: l).
Proof. reflexivity. Qed.

Lemma String_split_join (sep : N) (cells : list jsstring) :
  cells ≠ [] → Forall (fun s => sep ∉ s) cells →
  String_split sep (join [sep] cells) = cells.
Proof.
  intros Hne H. induction H as [|s cells Hs H IH]; [congruence|].
  destruct cells as [|t cells].
  - simpl. apply String_split_no_sep, Hs.
  - rewrite join_cons_cons. simpl app.
    rewrite (String_split_app _ _ _ Hs). f_equal. apply IH. discriminate.
Qed.

Lemma join_elem sep l c :
  c ∈ join sep l → c ∈ sep ∨ ∃ s, s ∈ l ∧ c ∈ s.
Proof.
  induction l as [|x [|y l] IH].
  - intros H. inversion H.
  - simpl. intros H. right. exists x. split; [apply list_elem_of_here | exact H].
  - rewrite join_cons_cons, !elem_of_app. intros [H|[H|H]].
    + right. exists x. split; [apply list_elem_of_here | exact H].
    + left. exact H.
    + destruct (IH H) as [H'|(s & Hs & Hc)]; [left; exact H'|].
      right. exists s. split; [apply list_elem_of_further, Hs | exact Hc].
Qed.

Lemma elem_join sep l s c : s ∈ l → c ∈ s → c ∈ join sep l.
Proof.
  induction l as [|x [|y l] IH]; intros Hs Hc.
  - inversion Hs.
  - apply list_elem_of_singleton in Hs as ->. exact Hc.
  - rewrite join_cons_cons, !elem_of_app.
    apply elem_of_cons in Hs as [->|Hs]; [left; exact Hc|].
    right. right. apply IH; assumption.
Qed.

Lemma cleanField_plain (s : jsstring) : plainText s → cleanField s = s.
Proof.
  intros [H Ht]. unfold cleanField. rewrite Ht. apply filter_all.
  intros c Hc. destruct (H c Hc) as (_ & ? & _). assumption.
Qed.

Lemma trimStart_keeps s c :
  c ∈ s → isWhiteSpace c = false → c ∈ trimStart s.
Proof.
  intros Hc Hw. induction s as [|x s IH]; [inversion Hc|]. simpl.
  destruct (isWhiteSpace x) eqn:E; [|exact Hc].
  apply elem_of_cons in Hc as [->|Hc]; [congruence | auto].
Qed.

Lemma trim_not_blank s c : c ∈ s → isWhiteSpace c = false → trim s ≠ [].
Proof.
  intros Hc Hw E.
  assert (H : c ∈ trim s).
  { unfold trim, trimEnd. apply elem_of_rev, trimStart_keeps; [|exact Hw].
    apply elem_of_rev, trimStart_keeps; assumption. }
  rewrite E in H. inversion H.
Qed.

Lemma get_plain (txn : Row) (name : string) (fallback : value) :
  (∀ v, txn !! js name = Some v → plainText v) →
  (∃ a, fallback = VString a ∧ plainText a) →
  ∃ a, js_or (get txn name) fallback = VString a ∧ plainText a.
Proof.
  intros H Hf. unfold get.
  destruct (txn !! js name) as [[|c s]|] eqn:E; simpl js_or; eauto.
Qed.

Lemma js_or_plain (v fallback : value) :
  (∃ a, v = VString a ∧ plainText a) →
  (∃ a, fallback = VString a ∧ plainText a) →
  ∃ a, js_or v fallback = VString a ∧ plainText a.
Proof.
  intros (a & -> & Ha) Hf. destruct a; simpl js_or; eauto.
Qed.

Lemma fmap_ToString_VString (cells : list jsstring) :
  ToString <$> (VString <$> cells) = cells.
Proof.
  induction cells as [|s cells IH]; [reflexivity|].
  rewrite !fmap_cons, IH. reflexivity.
Qed.

Lemma onlyCells_plain (source : jsstring) (txn : Row) :
  plainText source →
  (∀ name v,
     name ∈ [js "transaction_reference"; js "reference"; js "id"; js "status";
             js "date"] →
     txn !! name = Some v → plainText v) →
  ∃ cells, onlyCells source (RowItem txn) = VString <$> cells
           ∧ Forall plainText cells ∧ length cells = 5 ∧ source ∈ cells.
Proof.
  intros Hsource H.
  assert (Hnil : ∃ a, VString [] = VString a ∧ plainText a).
  { exists []. split; [reflexivity | apply plainText_nil]. }
  assert (Hget : ∀ name : string,
            js name ∈ [js "transaction_reference"; js "reference"; js "id";
                       js "status"; js "date"] →
            ∀ fallback, (∃ a, fallback = VString a ∧ plainText a) →
            ∃ a, js_or (get txn name) fallback = VString a ∧ plainText a).
  { intros name Hname fallback Hf. apply get_plain; [|exact Hf].
    intros v. apply H, Hname. }
  assert (Hmem : ∀ n : jsstring,
            n = js "transaction_reference" ∨ n = js "reference" ∨ n = js "id"
            ∨ n = js "status" ∨ n = js "date" →
            n ∈ [js "transaction_reference"; js "reference"; js "id";
                 js "status"; js "date"]).
  { intros n Hn. rewrite !elem_of_cons. tauto. }
  destruct (Hget "id" (Hmem (js "id") ltac:(tauto)) _ Hnil) as (a3 & E3 & H3).
  destruct (Hget "reference" (Hmem (js "reference") ltac:(tauto)) _
              (ex_intro _ a3 (conj E3 H3))) as (a2 & E2 & H2).
  destruct (Hget "transaction_reference" (Hmem (js "transaction_reference") ltac:(tauto)) _
              (ex_intro _ a2 (conj E2 H2))) as (a1 & E1 & H1).
  destruct (Hget "status" (Hmem (js "status") ltac:(tauto)) _ Hnil) as (st & Est & Hst).
  destruct (Hget "date" (Hmem (js "date") ltac:(tauto)) _ Hnil) as (dt & Edt & Hdt).
  assert (Hassoc : ∀ a b c d : value,
            js_or (js_or (js_or a b) c) d = js_or a (js_or b (js_or c d))).
  { intros a b c d. unfold js_or.
    destruct (ToBoolean a) eqn:Ea; cbv iota; rewrite ?Ea; cbv iota;
      rewrite ?Ea; cbv iota; [reflexivity|].
    destruct (ToBoolean b) eqn:Eb; cbv iota; rewrite ?Eb; cbv iota;
      reflexivity. }
  exists [a1; toFixed2 (parseFloat (js_or (get txn "amount") (VNumber 0))); st; dt;
          source].
  split; [|split; [|split; [reflexivity | rewrite !elem_of_cons; tauto]]].
  - unfold onlyCells, itemText, orEmpty, amountCell.
    rewrite Hassoc, E1, Est, Edt. reflexivity.
  - apply Forall_cons_2; [exact H1|].
    apply Forall_cons_2; [apply safe_plainText; intros c; apply toFixed2_safe|].
    apply Forall_cons_2; [exact Hst|]. apply Forall_cons_2; [exact Hdt|].
    apply Forall_cons_2; [exact Hsource | apply Forall_nil_2].
Qed.

Lemma exportLine_facts (source : jsstring) (txn : Row) :
  plainText source →
  (∃ c, c ∈ source ∧ isWhiteSpace c = false) →
  (∀ name v,
     name ∈ [js "transaction_reference"; js "reference"; js "id"; js "status";
             js "date"] →
     txn !! name = Some v → plainText v) →
  let line := join [44%N] (ToString <$> onlyCells source (RowItem txn)) in
  csvLine (onlyCells source (RowItem txn)) = Ok line
  ∧ (10%N ∉ line) ∧ trim line ≠ []
  ∧ parseLine onlyColumnNames line = Some (displayRow source txn).
Proof.
  intros Hsource (c & Hc & Hw) H line. subst line. unfold displayRow.
  destruct (onlyCells_plain source txn Hsource H) as (cells & -> & Hp & Hlen & Hin).
  rewrite fmap_ToString_VString.
  rewrite Forall_forall in Hp.
  split; [apply csvLine_plain, Forall_forall, Hp|].
  split; [|split].
  - intros H10. apply join_elem in H10 as [H10|(s & Hs & H10)].
    + apply list_elem_of_singleton in H10. discriminate.
    + destruct (Hp s Hs) as [Hs' _]. destruct (Hs' _ H10) as (_ & _ & ?).
      congruence.
  - apply (trim_not_blank _ c); [|exact Hw]. apply (elem_join _ _ source); assumption.
  - unfold parseLine. rewrite String_split_join.
    + assert (E : cleanField <$> cells = cells).
      { clear Hlen Hin. induction cells as [|s cells IH]; [reflexivity|].
        rewrite fmap_cons, IH.
        * rewrite cleanField_plain; [reflexivity|]. apply Hp, list_elem_of_here.
        * intros x Hx. apply Hp, list_elem_of_further, Hx. }
      rewrite E, Hlen. reflexivity.
    + intros ->. discriminate.
    + apply Forall_forall. intros s Hs H44.
      destruct (Hp s Hs) as [Hs' _]. destruct (Hs' _ H44) as (? & _ & _).
      congruence.
Qed.

Lemma exportLines_read_back (source : jsstring) (data : list Row) :
  plainText source →
  (∃ c, c ∈ source ∧ isWhiteSpace c = false) →
  (∀ txn name v,
     txn ∈ data →
     name ∈ [js "transaction_reference"; js "reference"; js "id"; js "status";
             js "date"] →
     txn !! name = Some v → plainText v) →
  let lineOf txn := join [44%N] (ToString <$> onlyCells source (RowItem txn)) in
  mapM csvLine (onlyCells source <$> (RowItem <$> data)) = Ok (lineOf <$> data)
  ∧ Forall (fun line => (10%N ∉ line) ∧ trim line ≠ []) (lineOf <$> data)
  ∧ omap (parseLine onlyColumnNames) (lineOf <$> data)
    = displayRow source <$> data.
Proof.
  intros Hsource Hc H lineOf.
  induction data as [|txn data IH]; [repeat split; constructor|].
  destruct IH as (IH1 & IH2 & IH3).
  { intros t name v Ht. apply H, list_elem_of_further, Ht. }
  destruct (exportLine_facts source txn Hsource Hc) as (E1 & E2 & E3 & E4).
  { intros name v. apply H, list_elem_of_here. }
  rewrite !fmap_cons. split; [|split].
  - apply mapM_cons_Ok; [exact E1 | exact IH1].
  - apply Forall_cons_2; [split; assumption | exact IH2].
  - change (omap (parseLine onlyColumnNames) (lineOf txn :: (lineOf <$> data)))
      with (match parseLine onlyColumnNames (lineOf txn) with
            | Some y => y :: omap (parseLine onlyColumnNames) (lineOf <$> data)
            | None => omap (parseLine onlyColumnNames) (lineOf <$> data)
            end).
    unfold lineOf at 1. rewrite E4, IH3. reflexivity.
Qed.

(** X15.  An export of the rows of one side reads back as the table it
    shows.  When the references, statuses and dates of the rows are plain
    texts (no comma, double quote or line feed, no white space at either
    end), the file [convertToCSV] writes for [internal_only] or
    [provider_only] is accepted by [parseCSV], and the rows read are, in the
    same order, the five display columns of the exported rows: the first
    present reference, the amount with two decimals, the status, the date and
    the name of the side. *)
Theorem export_reads_back (data : list Row) (type source : jsstring) :
  (type = js "internal_only" ∧ source = js "Internal System Only"
   ∨ type = js "provider_only" ∧ source = js "Provider Statement Only") →
  data ≠ [] →
  (∀ txn name v,
     txn ∈ data →
     name ∈ [js "transaction_reference"; js "reference"; js "id"; js "status";
             js "date"] →
     txn !! name = Some v → plainText v) →
  ∃ content,
    convertToCSV (RowItem <$> data) type = Ok content
    ∧ parseCSV (Some content) = Resolved (displayRow source <$> data).
Proof.
  intros Ht Hne H.
  assert (Hs : plainText source ∧ ∃ c, c ∈ source ∧ isWhiteSpace c = false).
  { destruct Ht as [[_ ->] | [_ ->]].
    - split; [apply plainText_check; vm_compute; reflexivity|].
      exists 73%N. split; [apply (bool_decide_unpack _); vm_compute; exact I|].
      reflexivity.
    - split; [apply plainText_check; vm_compute; reflexivity|].
      exists 80%N. split; [apply (bool_decide_unpack _); vm_compute; exact I|].
      reflexivity. }
  destruct Hs as [Hsource Hc].
  destruct (exportLines_read_back source data Hsource Hc H) as (E1 & E2 & E3).
  set (lineOf := fun txn : Row =>
         join [44%N] (ToString <$> onlyCells source (RowItem txn))) in *.
  set (headerLine := join [44%N] onlyColumnNames).
  assert (Hheader : csvLine onlyHeaders = Ok headerLine)
    by (vm_compute; reflexivity).
  exists (join [10%N] (headerLine :: (lineOf <$> data))).
  split.
  - unfold convertToCSV. rewrite length_fmap.
    destruct data as [|txn data]; [congruence|].
    change (length (txn :: data) =? 0)%nat with false. cbv iota.
    destruct Ht as [[-> ->] | [-> ->]]; decide_names;
      unfold csvContent; rewrite Hheader, exc_bind_Ok, E1; reflexivity.
  - assert (Hsplit : String_split 10 (join [10%N] (headerLine :: (lineOf <$> data)))
                     = headerLine :: (lineOf <$> data)).
    { apply String_split_join; [discriminate|].
      apply Forall_cons_2.
      - intros H10. apply (bool_decide_pack _) in H10. vm_compute in H10.
        exact H10.
      - eapply Forall_impl; [exact E2|]. intros line [H10 _]. exact H10. }
    assert (Hnb : nonBlankLines (join [10%N] (headerLine :: (lineOf <$> data)))
                  = headerLine :: (lineOf <$> data)).
    { unfold nonBlankLines. rewrite Hsplit. apply filter_all.
      intros line Hl. apply elem_of_cons in Hl as [-> | Hl].
      - vm_compute. reflexivity.
      - rewrite Forall_forall in E2. destruct (E2 line Hl) as [_ Hnz].
        destruct (trim line); [congruence | reflexivity]. }
    unfold parseCSV. cbv zeta. rewrite Hnb.
    destruct data as [|txn data]; [congruence|].
    change (length (headerLine :: (lineOf <$> txn :: data)) <? 2)%nat with false.
    cbv iota.
    change (tail (headerLine :: (lineOf <$> txn :: data)))
      with (lineOf <$> txn :: data).
    assert (Hh : csvHeaders (headerLine :: (lineOf <$> txn :: data))
                 = onlyColumnNames) by (vm_compute; reflexivity).
    rewrite Hh, E3. reflexivity.
Qed.

Lemma export_reads_back_T1 :
  ∃ content,
    convertToCSV (RowItem <$> [T1_internal]) (js "internal_only") = Ok content
    ∧ parseCSV (Some content)
      = Resolved (displayRow (js "Internal System Only") <$> [T1_internal]).
Proof.
  apply export_reads_back.
  - left. split; reflexivity.
  - discriminate.
  - intros txn name v Htxn Hname Hv.
    apply list_elem_of_singleton in Htxn as ->.
    apply plainText_check.
    rewrite !elem_of_cons in Hname.
    destruct Hname as [-> | [-> | [-> | [-> | [-> | Hname]]]]];
      try (inversion Hname);
      vm_compute in Hv; try discriminate Hv;
      injection Hv as <-; vm_compute; reflexivity.
Defined.
